(** * ReadCoherentHaplotypeBuilder: extension, culling and the round loop

    A shallow embedding of [src/Algorithm/ReadCoherentHaplotypeBuilder.cpp]
    (SGA).  The builder grows a list of candidate haplotypes one base at a
    time in both directions, branching whenever the index supports more than
    one extension, and every tenth round removes the candidates whose reads
    leave a gap of more than 20 positions.

    The index ([BWTAlgorithms], [HapgenUtil]), the aligner ([Overlapper]),
    [reverseComplement] and the alphabet table live outside the translated
    file; they are variables of the section below.

    Two parts of [src/Algorithm/VCFTester.cpp] are embedded as well:
    [applyVariant], and the k-mer scan inside [process], whose two index
    look-ups are arguments of the scan. *)

From Stdlib Require Import ZArith List Ascii String Lia.
From stdpp Require Import base tactics option list sorting.
From Equations Require Import Equations.
Import ListNotations.

Local Open Scope Z_scope.

(** ** Machine integers and strings *)

(** [size_t] is 64 bits wide; [int] is 32 bits wide, two's complement. *)
Definition SIZE_MAX : Z := 2 ^ 64 - 1.
Definition wrap_size (z : Z) : Z := z mod 2 ^ 64.
Definition wrap_int (z : Z) : Z := (z + 2 ^ 31) mod 2 ^ 32 - 2 ^ 31.

(** A [std::string] is its list of characters. *)
Definition str : Type := list ascii.
Definition size {A} (s : list A) : Z := Z.of_nat (length s).
Definition npos : Z := SIZE_MAX.

(** ** Abnormal termination

    [std::string::substr] throws [std::out_of_range] when the start position
    lies past the end; reading a [std::vector] past its end has no defined
    result; a failed [assert] aborts.  None of them is caught in this file,
    so each one ends the call that raised it and every caller above it. *)
Inductive fault : Type :=
| OutOfRange
| OutOfBounds
| AssertionFailed.

Inductive result (A : Type) : Type :=
| Ok (a : A)
| Fault (f : fault).
Arguments Ok {A} a.
Arguments Fault {A} f.

#[global] Instance result_ret : MRet result := @Ok.
#[global] Instance result_bind : MBind result :=
  fun A B f m => match m with Ok a => f a | Fault e => Fault e end.

Definition is_Ok {A} (r : result A) : Prop := exists a, r = Ok a.

(** [s.substr(pos, n)] *)
Definition substr (s : str) (pos n : Z) : result str :=
  if size s <? pos then Fault OutOfRange
  else
    let rlen := Z.min n (size s - pos) in
    Ok (take (Z.to_nat rlen) (drop (Z.to_nat pos) s)).

(** [v[i]] on a [std::vector] *)
Definition at_index {A} (v : list A) (i : Z) : result A :=
  if (0 <=? i) && (i <? size v) then
    match v !! Z.to_nat i with
    | Some x => Ok x
    | None => Fault OutOfBounds
    end
  else Fault OutOfBounds.

(** ** Data *)

Inductive EdgeDir : Type := ED_SENSE | ED_ANTISENSE.

(** [AlphaCount64]: a count per base, read with [get]. *)
Definition AlphaCount64 : Type := ascii -> Z.

(** The two fields of a [SequenceOverlap] that the builder reads:
    [edit_distance] and [match[0].start]. *)
Record SequenceOverlap : Type := {
  edit_distance : Z;
  match0_start : Z
}.

Record ReadCoherentHaplotypeBuilder : Type := {
  m_kmer : Z;
  m_kmerThreshold : Z;
  m_maxEditDistance : Z;
  m_haplotypes : list str;
  m_reads : list str
}.

Definition with_haplotypes (b : ReadCoherentHaplotypeBuilder) (hs : list str) :=
  {| m_kmer := m_kmer b; m_kmerThreshold := m_kmerThreshold b;
     m_maxEditDistance := m_maxEditDistance b;
     m_haplotypes := hs; m_reads := m_reads b |}.

Definition with_reads (b : ReadCoherentHaplotypeBuilder) (rs : list str) :=
  {| m_kmer := m_kmer b; m_kmerThreshold := m_kmerThreshold b;
     m_maxEditDistance := m_maxEditDistance b;
     m_haplotypes := m_haplotypes b; m_reads := rs |}.

(** The constructor initialises [m_kmer] and [m_maxEditDistance] only; the
    threshold holds whatever [indeterminate] was in memory until [setKmer]
    runs. *)
Definition constructor (indeterminate : Z) : ReadCoherentHaplotypeBuilder :=
  {| m_kmer := 0; m_kmerThreshold := indeterminate; m_maxEditDistance := 1;
     m_haplotypes := []; m_reads := [] |}.

Definition setKmer (k : Z) (b : ReadCoherentHaplotypeBuilder) :=
  {| m_kmer := k; m_kmerThreshold := 1;
     m_maxEditDistance := m_maxEditDistance b;
     m_haplotypes := m_haplotypes b; m_reads := m_reads b |}.

Definition setInitialHaplotype (sequence : str) (b : ReadCoherentHaplotypeBuilder) :=
  with_haplotypes b (m_haplotypes b ++ [sequence]).

(** [iterator->append(1, c)] and [iterator->insert(0, 1, c)] *)
Definition extend_with (direction : EdgeDir) (h : str) (c : ascii) : str :=
  match direction with
  | ED_SENSE => h ++ [c]
  | ED_ANTISENSE => c :: h
  end.

(** ** A small index for the examples

    Reads over [ACGT].  The k-mer [ACGT] has the forward extensions [A] and
    [C] (five occurrences each) and the backward extension [T]; no other
    k-mer has any.  The aligner accepts a read at an offset only where it
    occurs verbatim. *)
Definition bases (s : string) : str := list_ascii_of_string s.

Definition str_eqb (x y : str) : bool :=
  String.eqb (string_of_list_ascii x) (string_of_list_ascii y).

Module Toy.

Definition alphabet : list ascii := bases "ACGT".

Definition counts (kmer : str) (direction : EdgeDir) : AlphaCount64 :=
  fun c =>
    if str_eqb kmer (bases "ACGT") then
      match direction with
      | ED_SENSE => if Ascii.eqb c "A" || Ascii.eqb c "C" then 5 else 0
      | ED_ANTISENSE => if Ascii.eqb c "T" then 3 else 0
      end
    else 0.

Definition complement (c : ascii) : ascii :=
  if Ascii.eqb c "A" then "T"%char
  else if Ascii.eqb c "C" then "G"%char
  else if Ascii.eqb c "G" then "C"%char
  else if Ascii.eqb c "T" then "A"%char
  else c.

Definition reverse_complement (s : str) : str := rev (map complement s).

(** One forward read [A] and one reverse read [C] (that is, [G]). *)
Definition reads (hs : list str) (k : Z) (reverse : bool) (max : Z) : list str :=
  if reverse then [bases "C"] else [bases "A"].

(** A single read that occurs in no candidate over [ACG]. *)
Definition unplaceable_reads (hs : list str) (k : Z) (reverse : bool) (max : Z)
    : list str :=
  if reverse then [] else [bases "TTTTTTTT"].

(** A single read that is the seed itself. *)
Definition exact_read (hs : list str) (k : Z) (reverse : bool) (max : Z)
    : list str :=
  if reverse then [] else [bases "ACGTACGT"].

Definition align (haplotype read : str) (start a g : Z) : SequenceOverlap :=
  {| edit_distance :=
       if str_eqb (take (length read) (drop (Z.to_nat start) haplotype)) read
       then 0 else 9;
     match0_start := start |}.

(** The same index, asked twice. *)
Definition recount (kmer : str) (direction : EdgeDir) : AlphaCount64 :=
  fun c => 0 + counts kmer direction c.

Definition seed : str := bases "ACGTACGT".

Definition builder : ReadCoherentHaplotypeBuilder :=
  setInitialHaplotype seed (setKmer 4 (constructor 0)).

(** A seed whose last k-mer is unknown to the index. *)
Definition stalled : ReadCoherentHaplotypeBuilder :=
  setInitialHaplotype (bases "ACGTACGA") (setKmer 4 (constructor 0)).

(** [A], 24 times [C], [G]: its two reads start 25 positions apart. *)
Definition gapped : str := bases "ACCCCCCCCCCCCCCCCCCCCCCCCG".

Definition two_candidates : ReadCoherentHaplotypeBuilder :=
  with_haplotypes builder [seed; gapped].

(** A seed shorter than the k-mer length. *)
Definition short : ReadCoherentHaplotypeBuilder :=
  setInitialHaplotype (bases "AC") (setKmer 4 (constructor 0)).

(** A base index that knows [ACGT] only, and a variant index that knows
    every k-mer twelve times. *)
Definition base_count (ks : str) : Z :=
  if str_eqb ks (bases "ACGT") then 3 else 0.

Definition variant_count (ks : str) : Z := 12.



End Toy.

(** ** VCFTester::applyVariant

    [src/Algorithm/VCFTester.cpp], lines 150-160. *)

(** [s.replace(pos, n, t)] *)
Definition replace (s : str) (pos n : Z) (t : str) : result str :=
  if size s <? pos then Fault OutOfRange
  else
    let rlen := Z.min n (size s - pos) in
    Ok (take (Z.to_nat pos) s ++ t ++ drop (Z.to_nat (pos + rlen)) s).

(** [pos] is an [int]; it is compared with [(int)out.length()] and then
    passed where a [size_t] is expected. *)
Definition applyVariant (in_ : str) (pos : Z) (ref alt : str) : result str :=
  let out := in_ in
  if (0 <? pos) && (pos <? wrap_int (size out)) then
    found ← substr out (wrap_size pos) (size ref);
    if str_eqb found ref
    then replace out (wrap_size pos) (size ref) alt
    else Fault AssertionFailed
  else Fault AssertionFailed.


(** ** The k-mer scan of VCFTester::process

    [src/Algorithm/VCFTester.cpp], lines 83-129: every k-mer of the variant
    string is counted in the base index and in the variant index; the counts
    are recorded clamped at 9, and the last k-mer that the base index lacks
    and the variant index has is remembered. *)
Record KmerScan : Type := {
  bv : list Z;
  vv : list Z;
  variantKmer : str
}.

(** Lines 90-99: the body of the loop for the k-mer [ks]. *)
Definition scan_kmer (countBase countVariant : str -> Z) (st : KmerScan)
    (ks : str) : KmerScan :=
  let baseCount := countBase ks in
  let varCount := countVariant ks in
  {| bv := bv st ++ [if 9 <? baseCount then 9 else baseCount];
     vv := vv st ++ [if 9 <? varCount then 9 else varCount];
     variantKmer :=
       if (baseCount =? 0) && (0 <? varCount) then ks else variantKmer st |}.

(** Line 88: [for(size_t i = 0; i < varStr.size() - k + 1; ++i)]; [bound] is
    the value of [varStr.size() - k + 1]. *)
Equations? process_scan_loop (countBase countVariant : str -> Z)
    (varStr : str) (k bound i : Z) (st : KmerScan)
    : result KmerScan by wf (Z.to_nat (bound - i)) lt :=
  process_scan_loop countBase countVariant varStr k bound i st
    with decide (i < bound) => {
    | right _ => Ok st
    | left _ with substr varStr i k => {
      | Ok ks =>
          process_scan_loop countBase countVariant varStr k bound (i + 1)
            (scan_kmer countBase countVariant st ks)
      | Fault f => Fault f } }.
Proof. lia. Qed.

(** Lines 83-129; the second component is [canAssemble]. *)
Definition process_kmer_scan (countBase countVariant : str -> Z)
    (varStr : str) (k : Z) : result (KmerScan * bool) :=
  st ← process_scan_loop countBase countVariant varStr k
         (wrap_size (size varStr - k + 1)) 0
         {| bv := []; vv := []; variantKmer := [] |};
  Ok (st, negb (bool_decide (variantKmer st = []))).

(** The k-mers of a string, from left to right. *)
Definition kmers (varStr : str) (k : Z) : list str :=
  map (fun i => take (Z.to_nat k) (drop (Z.to_nat i) varStr))
      (seqZ 0 (size varStr - k + 1)).

(** The base index lacks the k-mer and the variant index has it. *)
Definition variant_only (countBase countVariant : str -> Z) (ks : str) : bool :=
  (countBase ks =? 0) && (0 <? countVariant ks).


(** The steps of the orchestrator.  A round is one forward Extension Step,
    one reverse Extension Step and, when its number is a multiple of 10, a
    Cull Step; a run is rounds 1 to 100. *)
Inductive step : Type :=
| Extend (direction : EdgeDir)
| Cull.

Definition round_steps (round : Z) : list step :=
  [Extend ED_SENSE; Extend ED_ANTISENSE]
  ++ (if round mod 10 =? 0 then [Cull] else []).

Definition rounds : list Z := seqZ 1 100.

Definition schedule : list step := concat (map round_steps rounds).



Section Builder.

(** The collaborators the builder borrows.  [DNA_ALPHABET] lists the bases in
    the order of [DNA_ALPHABET::getBase(0)], [getBase(1)], ...; the index
    answers extension queries and hands out reads; the aligner refines one
    start offset into an overlap.  The handles that [setIndex] stores
    ([m_pBWT], [m_pIntervalCache], [m_pSSA]) are what the two index
    functions stand for. *)
Variable DNA_ALPHABET : list ascii.
Variable calculateDeBruijnExtensionsSingleIndex : str -> EdgeDir -> AlphaCount64.
Variable extractHaplotypeReads : list str -> Z -> bool -> Z -> list str.
Variable reverseComplement : str -> str.
Variable extendMatch : str -> str -> Z -> Z -> Z -> SequenceOverlap.

(** *** extendOnce *)

(** Lines 91-95: the anchor k-mer of one haplotype. *)
Definition query_kmer (b : ReadCoherentHaplotypeBuilder) (direction : EdgeDir)
    (h : str) : result str :=
  match direction with
  | ED_SENSE => substr h (wrap_size (size h - m_kmer b)) npos
  | ED_ANTISENSE => substr h 0 (m_kmer b)
  end.

(** Lines 98-106: the bases whose count reaches the threshold, in the order
    of the alphabet. *)
Definition extensionBases (b : ReadCoherentHaplotypeBuilder) (direction : EdgeDir)
    (kmer : str) : list ascii :=
  let extensionCounts := calculateDeBruijnExtensionsSingleIndex kmer direction in
  List.filter (fun c => m_kmerThreshold b <=? extensionCounts c) DNA_ALPHABET.

(** Lines 108-135: what one loop iteration does to the haplotype under the
    iterator and to [incoming_haplotypes]. *)
Definition extend_one (direction : EdgeDir) (h : str) (bases : list ascii)
    (incoming : list str) : str * list str :=
  match bases with
  | [] => (h, incoming)
  | [c] => (extend_with direction h c, incoming)
  | c :: others =>
      (extend_with direction h c,
       incoming ++ map (extend_with direction h) others)
  end.

(** Lines 88-136: the loop over [m_haplotypes].  It returns the list as
    mutated in place together with [incoming_haplotypes]. *)
Fixpoint extend_each (b : ReadCoherentHaplotypeBuilder) (direction : EdgeDir)
    (hs : list str) (incoming : list str) : result (list str * list str) :=
  match hs with
  | [] => Ok ([], incoming)
  | h :: rest =>
      kmer ← query_kmer b direction h;
      let '(h', incoming') :=
        extend_one direction h (extensionBases b direction kmer) incoming in
      '(rest', incoming'') ← extend_each b direction rest incoming';
      Ok (h' :: rest', incoming'')
  end.

(** Line 139 splices [incoming_haplotypes] onto the end of the list. *)
Definition extendOnce (direction : EdgeDir) (b : ReadCoherentHaplotypeBuilder)
    : result ReadCoherentHaplotypeBuilder :=
  '(live, incoming) ← extend_each b direction (m_haplotypes b) [];
  Ok (with_haplotypes b (live ++ incoming)).

(** *** calculateHaplotypeIncoherency *)

(** [haplotype[i] == read[k]]; both reads are in range wherever line 204
    evaluates the comparison. *)
Definition same_char (haplotype read : str) (i k : Z) : bool :=
  match haplotype !! Z.to_nat i, read !! Z.to_nat k with
  | Some a, Some c => Ascii.eqb a c
  | _, _ => false
  end.

(** Line 204: one term of the mismatch sum.  The index [j + k] is a [size_t]
    sum; the character is read only when the index is in range. *)
Definition mismatch_at (haplotype read : str) (j k : Z) : Z :=
  let jk := wrap_size (j + k) in
  if (jk <? size haplotype)
     && same_char haplotype read jk k
  then 0 else 1.

(** Lines 202-204: the mismatch count of start position [j]. *)
Definition count_mismatches (haplotype read : str) (j : Z) : Z :=
  foldl (fun mismatches k => wrap_size (mismatches + mismatch_at haplotype read j k))
        0 (seqZ 0 (size read)).

(** Lines 206-215: the update of [(best_mismatches, best_starts)]. *)
Definition scan_step (haplotype read : str) (st : Z * list Z) (j : Z)
    : Z * list Z :=
  let '(best_mismatches, best_starts) := st in
  let mismatches := count_mismatches haplotype read j in
  if mismatches <? best_mismatches then (mismatches, [j])
  else if mismatches =? best_mismatches then (best_mismatches, best_starts ++ [j])
  else (best_mismatches, best_starts).

(** Lines 198-216: the scan over every start position of the haplotype. *)
Definition scan_starts (haplotype read : str) : Z * list Z :=
  foldl (scan_step haplotype read) (SIZE_MAX, []) (seqZ 0 (size haplotype)).

Definition best_starts (haplotype read : str) : list Z :=
  snd (scan_starts haplotype read).

(** Lines 218-230: each best start is refined by the aligner and its start
    coordinate recorded when the edit distance is within the limit.  The
    [MultipleAlignment] object is local and never read, so it is left out. *)
Definition place_step (b : ReadCoherentHaplotypeBuilder) (haplotype read : str)
    (start_vector : list Z) (start : Z) : list Z :=
  let overlap := extendMatch haplotype read start 0 2 in
  if edit_distance overlap <=? wrap_int (m_maxEditDistance b)
  then start_vector ++ [match0_start overlap]
  else start_vector.

Definition place_read (b : ReadCoherentHaplotypeBuilder) (haplotype : str)
    (start_vector : list Z) (read : str) : list Z :=
  foldl (place_step b haplotype read) start_vector (best_starts haplotype read).

(** Lines 190-231: [start_vector] after the loop over [m_reads]. *)
Definition collect_starts (b : ReadCoherentHaplotypeBuilder) (haplotype : str)
    : list Z :=
  foldl (place_read b haplotype) [] (m_reads b).

(** Lines 236-241: [for(size_t i = 0; i < start_vector.size() - 1; ++i)].
    [bound] is the value of [start_vector.size() - 1]; since [i < bound] and
    [bound] is a [size_t], neither [i + 1] nor [++i] can wrap. *)
Equations? max_jump_loop (start_vector : list Z) (bound i max_jump : Z)
    : result Z by wf (Z.to_nat (bound - i)) lt :=
  max_jump_loop start_vector bound i max_jump with decide (i < bound) => {
    | right _ => Ok max_jump
    | left _ with at_index start_vector (i + 1), at_index start_vector i => {
      | Ok hi, Ok lo =>
          let jump := wrap_int (hi - lo) in
          max_jump_loop start_vector bound (i + 1)
            (if max_jump <? jump then jump else max_jump)
      | Fault f, _ => Fault f
      | _, Fault f => Fault f } }.
Proof. lia. Qed.

(** Lines 184-243. *)
Definition calculateHaplotypeIncoherency (b : ReadCoherentHaplotypeBuilder)
    (haplotype : str) : result Z :=
  let start_vector := merge_sort Z.le (collect_starts b haplotype) in
  max_jump_loop start_vector (wrap_size (size start_vector - 1)) 0 0.

(** *** getReads and cullHaplotypes *)

Definition getReads (b : ReadCoherentHaplotypeBuilder) : ReadCoherentHaplotypeBuilder :=
  let haplotype_vector := m_haplotypes b in
  let variant_reads :=
    extractHaplotypeReads haplotype_vector (m_kmer b) false 100000 in
  let variant_rc_reads :=
    extractHaplotypeReads haplotype_vector (m_kmer b) true 100000 in
  with_reads b (m_reads b ++ variant_reads ++ map reverseComplement variant_rc_reads).

(** Lines 147-155: the erase loop. *)
Fixpoint cull_each (b : ReadCoherentHaplotypeBuilder) (hs : list str)
    : result (list str) :=
  match hs with
  | [] => Ok []
  | h :: rest =>
      max_jump ← calculateHaplotypeIncoherency b h;
      rest' ← cull_each b rest;
      Ok (if 20 <? max_jump then rest' else h :: rest')
  end.

Definition cullHaplotypes (b : ReadCoherentHaplotypeBuilder)
    : result ReadCoherentHaplotypeBuilder :=
  let b := getReads (with_reads b []) in
  hs ← cull_each b (m_haplotypes b);
  Ok (with_haplotypes b hs).

(** *** run *)

Definition MAX_ROUNDS : Z := 100.

(** The body of one round; [round] is the value after [round++]. *)
Definition run_round (round : Z) (b : ReadCoherentHaplotypeBuilder)
    : result ReadCoherentHaplotypeBuilder :=
  b ← extendOnce ED_SENSE b;
  b ← extendOnce ED_ANTISENSE b;
  if Z.rem round 10 =? 0 then cullHaplotypes b else Ok b.

(** Lines 64-73: [while(round++ < MAX_ROUNDS)].  [round] is the value before
    the increment. *)
Equations? run_loop (round : Z) (b : ReadCoherentHaplotypeBuilder)
    : result ReadCoherentHaplotypeBuilder by wf (Z.to_nat (MAX_ROUNDS - round)) lt :=
  run_loop round b with decide (round < MAX_ROUNDS) => {
    | right _ => Ok b
    | left _ with run_round (round + 1) b => {
      | Ok b' => run_loop (round + 1) b'
      | Fault f => Fault f } }.
Proof. lia. Qed.

(** Lines 54-80.  The index is a variable of this section, so the assertion
    on [m_pBWT] always passes. *)
Definition run (b : ReadCoherentHaplotypeBuilder) : result (list str) :=
  if bool_decide (length (m_haplotypes b) = 1%nat) then
    b ← run_loop 0 b;
    Ok (m_haplotypes b)
  else Fault AssertionFailed.

(** ** Vocabulary of the statements *)

(** The caller's obligation on a candidate: it is at least as long as the
    anchor, and its length is a [size_t]. *)
Definition fits (b : ReadCoherentHaplotypeBuilder) (h : str) : Prop :=
  0 <= m_kmer b <= size h /\ size h < 2 ^ 64.

(** The anchor k-mer: the last [k] symbols going forward, the first [k]
    going backward. *)
Definition anchor (b : ReadCoherentHaplotypeBuilder) (direction : EdgeDir)
    (h : str) : str :=
  match direction with
  | ED_SENSE => drop (Z.to_nat (size h - m_kmer b)) h
  | ED_ANTISENSE => take (Z.to_nat (m_kmer b)) h
  end.

(** The valid extension symbols of a candidate. *)
Definition valid_extensions (b : ReadCoherentHaplotypeBuilder)
    (direction : EdgeDir) (h : str) : list ascii :=
  extensionBases b direction (anchor b direction h).

Definition is_valid_base (b : ReadCoherentHaplotypeBuilder)
    (direction : EdgeDir) (h : str) (c : ascii) : bool :=
  m_kmerThreshold b
    <=? calculateDeBruijnExtensionsSingleIndex (anchor b direction h) direction c.

(** What a pass leaves at a candidate's own position, and what it stages. *)
Definition primary (b : ReadCoherentHaplotypeBuilder) (direction : EdgeDir)
    (h : str) : str :=
  match valid_extensions b direction h with
  | [] => h
  | c :: _ => extend_with direction h c
  end.

Definition branches (b : ReadCoherentHaplotypeBuilder) (direction : EdgeDir)
    (h : str) : list str :=
  match valid_extensions b direction h with
  | [] => []
  | _ :: others => map (extend_with direction h) others
  end.

(** How one pass changes one candidate: it stalls, or it gains the first
    valid symbol and is one symbol longer. *)
Definition grows (b : ReadCoherentHaplotypeBuilder) (direction : EdgeDir)
    (h h' : str) : Prop :=
  (valid_extensions b direction h = [] /\ h' = h)
  \/ (exists c others,
        valid_extensions b direction h = c :: others
        /\ h' = extend_with direction h c /\ size h' = size h + 1).

(** The builder as the Cull Step scores it: reads cleared and fetched anew. *)
Definition with_fresh_reads (b : ReadCoherentHaplotypeBuilder)
    : ReadCoherentHaplotypeBuilder :=
  getReads (with_reads b []).

(** The candidate has an Incoherency Score and it is at most 20. *)
Definition within_gap (b : ReadCoherentHaplotypeBuilder) (h : str) : bool :=
  match calculateHaplotypeIncoherency b h with
  | Ok max_jump => max_jump <=? 20
  | Fault _ => false
  end.

(** *** The round schedule as the specification words it *)

(** Executing a list of steps in order; a fault ends the execution. *)
Definition do_step (s : step) (b : ReadCoherentHaplotypeBuilder)
    : result ReadCoherentHaplotypeBuilder :=
  match s with
  | Extend direction => extendOnce direction b
  | Cull => cullHaplotypes b
  end.

Fixpoint exec (steps : list step) (b : ReadCoherentHaplotypeBuilder)
    : result ReadCoherentHaplotypeBuilder :=
  match steps with
  | [] => Ok b
  | s :: rest => b' ← do_step s b; exec rest b'
  end.

(** *** The steps a run completes *)


(** Lines 64-73 once more, with a log of the calls that returned: the body
    of [run_round], [run_loop] and [run], each call followed by its entry
    in the log.  The log is a ghost: the second component is what [run]
    computes. *)
Definition run_round_log (round : Z) (b : ReadCoherentHaplotypeBuilder)
    (log : list step) : list step * result ReadCoherentHaplotypeBuilder :=
  match extendOnce ED_SENSE b with
  | Fault f => (log, Fault f)
  | Ok b =>
      let log := log ++ [Extend ED_SENSE] in
      match extendOnce ED_ANTISENSE b with
      | Fault f => (log, Fault f)
      | Ok b =>
          let log := log ++ [Extend ED_ANTISENSE] in
          if Z.rem round 10 =? 0 then
            match cullHaplotypes b with
            | Fault f => (log, Fault f)
            | Ok b => (log ++ [Cull], Ok b)
            end
          else (log, Ok b)
      end
  end.

Equations? run_loop_log (round : Z) (b : ReadCoherentHaplotypeBuilder)
    (log : list step) : list step * result ReadCoherentHaplotypeBuilder
    by wf (Z.to_nat (MAX_ROUNDS - round)) lt :=
  run_loop_log round b log with decide (round < MAX_ROUNDS) => {
    | right _ => (log, Ok b)
    | left _ with run_round_log (round + 1) b log => {
      | (log', Ok b') => run_loop_log (round + 1) b' log'
      | (log', Fault f) => (log', Fault f) } }.
Proof. lia. Qed.

Definition run_log (b : ReadCoherentHaplotypeBuilder)
    : list step * result (list str) :=
  if bool_decide (length (m_haplotypes b) = 1%nat) then
    let '(log, r) := run_loop_log 0 b [] in
    (log, b ← r; Ok (m_haplotypes b))
  else ([], Fault AssertionFailed).

(** The steps [run] has completed when it ends. *)
Definition completed (b : ReadCoherentHaplotypeBuilder) : list step :=
  fst (run_log b).

(** *** The mismatch scan as the specification words it *)

(** Position [k] of the read counts against start offset [j] when [j + k]
    is past the candidate's end or the two symbols differ. *)
Definition spec_is_mismatch (haplotype read : str) (j k : Z) : bool :=
  (size haplotype <=? j + k)
  || match haplotype !! Z.to_nat (j + k), read !! Z.to_nat k with
     | Some a, Some c => negb (Ascii.eqb a c)
     | _, _ => true
     end.

(** The score of a start offset: the number of such read positions. *)
Definition spec_score (haplotype read : str) (j : Z) : Z :=
  size (List.filter (spec_is_mismatch haplotype read j) (seqZ 0 (size read))).

(** All offsets [0 .. size haplotype - 1] whose score is minimal. *)
Definition spec_best_offsets (haplotype read : str) : list Z :=
  let offsets := seqZ 0 (size haplotype) in
  List.filter
    (fun j => forallb (fun j' => spec_score haplotype read j
                                 <=? spec_score haplotype read j') offsets)
    offsets.

(** The placements of one read: each best offset is aligned, and the start
    coordinate is kept when the edit distance is at most the maximum. *)
Definition spec_placements (b : ReadCoherentHaplotypeBuilder)
    (haplotype read : str) : list Z :=
  map match0_start
    (List.filter (fun overlap => edit_distance overlap <=? m_maxEditDistance b)
       (map (fun j => extendMatch haplotype read j 0 2)
            (spec_best_offsets haplotype read))).

(** The running minimum that the scan maintains in [best_mismatches]. *)
Definition min_mismatches (haplotype read : str) (start : Z) (offsets : list Z) : Z :=
  foldl (fun m j => Z.min m (count_mismatches haplotype read j)) start offsets.

(** *** The gaps of a start vector *)

(** The differences between neighbouring entries, and the largest of them
    (0 when there is none or none is positive). *)
Definition adjacent_gaps (v : list Z) : list Z :=
  zip_with (fun lo hi => hi - lo) v (drop 1 v).

Definition max_gap (v : list Z) : Z := foldl Z.max 0 (adjacent_gaps v).


(** The read occurs verbatim in the candidate at offset [j]. *)
Definition occurs_at (haplotype read : str) (j : Z) : Prop :=
  take (length read) (drop (Z.to_nat j) haplotype) = read.


(** The candidate is the seed with at most [n] symbols put in front of it
    and at most [m] symbols put behind it. *)
Definition around (seed : str) (n m : nat) (h : str) : Prop :=
  exists pre post,
    h = pre ++ seed ++ post /\ (length pre <= n)%nat /\ (length post <= m)%nat.


(** ** Facts about one extension pass *)

Lemma size_nonneg {A} (s : list A) : 0 <= size s.
Proof. unfold size. lia. Qed.

Lemma size_extend_with direction h c :
  size (extend_with direction h c) = size h + 1.
Proof.
  unfold size. destruct direction; simpl; rewrite ?length_app; simpl; lia.
Qed.

Lemma query_kmer_fits b direction h :
  fits b h -> query_kmer b direction h = Ok (anchor b direction h).
Proof.
  intros [[Hk0 Hk] Hsz]. pose proof (size_nonneg h) as Hh.
  destruct direction; unfold query_kmer, anchor, substr.
  - unfold wrap_size. rewrite Z.mod_small by lia.
    destruct (Z.ltb_spec (size h) (size h - m_kmer b)) as [?|_]; [lia|].
    f_equal. apply take_ge. rewrite length_drop.
    unfold npos, SIZE_MAX, size in *. lia.
  - destruct (Z.ltb_spec (size h) 0) as [?|_]; [lia|].
    rewrite drop_0. do 3 f_equal. lia.
Qed.

Lemma extend_one_primary b direction h incoming :
  extend_one direction h (valid_extensions b direction h) incoming
  = (primary b direction h, incoming ++ branches b direction h).
Proof.
  unfold extend_one, primary, branches.
  destruct (valid_extensions b direction h) as [|c [|c' others]]; simpl;
    rewrite ?app_nil_r; reflexivity.
Qed.

Lemma extend_each_fits b direction hs : forall incoming,
  Forall (fits b) hs ->
  extend_each b direction hs incoming
  = Ok (map (primary b direction) hs,
        incoming ++ concat (map (branches b direction) hs)).
Proof.
  induction hs as [|h rest IH]; intros incoming Hfits; simpl.
  - rewrite app_nil_r. reflexivity.
  - inversion Hfits as [|? ? Hh Hrest]; subst.
    rewrite (query_kmer_fits _ _ _ Hh). simpl.
    fold (valid_extensions b direction h). rewrite extend_one_primary.
    rewrite (IH _ Hrest). simpl. rewrite <- app_assoc. reflexivity.
Qed.

Lemma extendOnce_fits b direction :
  Forall (fits b) (m_haplotypes b) ->
  extendOnce direction b
  = Ok (with_haplotypes b
          (map (primary b direction) (m_haplotypes b)
           ++ concat (map (branches b direction) (m_haplotypes b)))).
Proof.
  intros Hfits. unfold extendOnce. rewrite (extend_each_fits _ _ _ _ Hfits).
  reflexivity.
Qed.

(** The first element of a filtered list is the first element that passes,
    and the rest is the filter of what follows it. *)
Lemma filter_cons_inv {A} (p : A -> bool) (l : list A) x xs :
  List.filter p l = x :: xs ->
  exists pre post,
    l = pre ++ x :: post /\ Forall (fun y => p y = false) pre
    /\ p x = true /\ xs = List.filter p post.
Proof.
  induction l as [|y l IH]; simpl; [discriminate|].
  destruct (p y) eqn:Hy.
  - intros [= -> <-]. exists [], l. repeat split; auto.
  - intros Hf. destruct (IH Hf) as (pre & post & -> & Hpre & Hx & ->).
    exists (y :: pre), post. repeat split; auto.
Qed.

Lemma valid_extensions_filter b direction h :
  valid_extensions b direction h
  = List.filter (is_valid_base b direction h) DNA_ALPHABET.
Proof. reflexivity. Qed.

Lemma primary_cases b direction h :
  (valid_extensions b direction h = [] /\ primary b direction h = h)
  \/ (exists c others, valid_extensions b direction h = c :: others
        /\ primary b direction h = extend_with direction h c).
Proof.
  unfold primary. destruct (valid_extensions b direction h) as [|c others].
  - left. auto.
  - right. eauto.
Qed.

Lemma branches_spec b direction h s :
  In s (branches b direction h) ->
  exists c, In c (valid_extensions b direction h) /\ s = extend_with direction h c.
Proof.
  unfold branches. destruct (valid_extensions b direction h) as [|c0 others].
  - intros [].
  - intros Hin. apply in_map_iff in Hin as (c & <- & Hc).
    exists c. split; [right; exact Hc | reflexivity].
Qed.

Lemma staged_spec b direction hs s :
  In s (concat (map (branches b direction) hs)) ->
  exists h c, In h hs /\ In c (valid_extensions b direction h)
              /\ s = extend_with direction h c.
Proof.
  intros Hin. apply in_concat in Hin as (l & Hl & Hs).
  apply in_map_iff in Hl as (h & <- & Hh).
  destruct (branches_spec _ _ _ _ Hs) as (c & Hc & ->). eauto.
Qed.

(** ** Claims about the Extension Step *)

(** C1.  Branch fan-out: when the candidate [h] has the valid extension
    symbols [c :: others] (so [m = length (c :: others) >= 1]), one pass
    puts [h] extended by [c] at [h]'s own position and stages exactly the
    [m - 1] sequences [h] extended by each of [others], in that order,
    between what the earlier and the later candidates stage.  [c] is the
    first valid symbol of the alphabet and [others] are the valid symbols
    after it, in alphabet order. *)
Theorem extendOnce_branch_fanout b direction l1 h l2 c others :
  m_haplotypes b = l1 ++ h :: l2 ->
  Forall (fits b) (m_haplotypes b) ->
  valid_extensions b direction h = c :: others ->
  exists live1 staged1 live2 staged2 pre post,
    extendOnce direction b
    = Ok (with_haplotypes b
            (live1 ++ extend_with direction h c :: live2
             ++ staged1 ++ map (extend_with direction h) others ++ staged2))
    /\ extend_each b direction l1 [] = Ok (live1, staged1)
    /\ extend_each b direction l2 [] = Ok (live2, staged2)
    /\ length live1 = length l1 /\ length live2 = length l2
    /\ length (map (extend_with direction h) others)
       = (length (c :: others) - 1)%nat
    /\ DNA_ALPHABET = pre ++ c :: post
    /\ Forall (fun y => is_valid_base b direction h y = false) pre
    /\ is_valid_base b direction h c = true
    /\ others = List.filter (is_valid_base b direction h) post.
Proof.
  intros Hhs Hfits Hvalid.
  assert (Hfits' := Hfits). rewrite Hhs in Hfits'.
  apply Forall_app in Hfits' as [Hf1 Hf2].
  apply Forall_cons in Hf2 as [Hfh Hf2].
  rewrite valid_extensions_filter in Hvalid.
  destruct (filter_cons_inv _ _ _ _ Hvalid) as (pre & post & Ha & Hpre & Hc & Ho).
  exists (map (primary b direction) l1), (concat (map (branches b direction) l1)),
         (map (primary b direction) l2), (concat (map (branches b direction) l2)),
         pre, post.
  rewrite (extendOnce_fits _ _ Hfits), Hhs.
  rewrite !(extend_each_fits _ _ _ [] ) by assumption.
  rewrite !map_app, !concat_app. simpl.
  unfold primary at 2, branches at 2.
  rewrite valid_extensions_filter, Hvalid.
  rewrite <- !app_assoc. simpl.
  rewrite !length_map. simpl. rewrite Nat.sub_0_r.
  repeat split; auto.
Qed.

(** C2.  Staging: the pass returns the in-place list [live] and the staging
    list [staged] separately and the set becomes [live ++ staged]; [live]
    has one entry per pre-existing candidate; wherever the iteration stands
    ([hs = l1 ++ l2]), what remains to be visited is [l2] alone, whatever
    has been staged so far; and every staged sequence is a pre-existing
    candidate's pre-extension sequence plus exactly one valid symbol. *)
Theorem extendOnce_staging b direction :
  Forall (fits b) (m_haplotypes b) ->
  exists live staged,
    extend_each b direction (m_haplotypes b) [] = Ok (live, staged)
    /\ extendOnce direction b = Ok (with_haplotypes b (live ++ staged))
    /\ length live = length (m_haplotypes b)
    /\ (forall l1 l2, m_haplotypes b = l1 ++ l2 ->
          exists live1 staged1 live2,
            extend_each b direction l1 [] = Ok (live1, staged1)
            /\ extend_each b direction l2 staged1 = Ok (live2, staged)
            /\ live = live1 ++ live2
            /\ length live1 = length l1 /\ length live2 = length l2)
    /\ (forall s, In s staged ->
          exists h c, In h (m_haplotypes b)
                      /\ In c (valid_extensions b direction h)
                      /\ s = extend_with direction h c).
Proof.
  intros Hfits.
  exists (map (primary b direction) (m_haplotypes b)),
         (concat (map (branches b direction) (m_haplotypes b))).
  split; [apply extend_each_fits; assumption|].
  split; [apply extendOnce_fits; assumption|].
  split; [apply length_map|].
  split.
  - intros l1 l2 Hsplit. rewrite Hsplit in *.
    apply Forall_app in Hfits as [Hf1 Hf2].
    exists (map (primary b direction) l1), (concat (map (branches b direction) l1)),
           (map (primary b direction) l2).
    rewrite !extend_each_fits by assumption.
    rewrite !map_app, concat_app, !length_map. auto.
  - intros s Hs. apply staged_spec. exact Hs.
Qed.

Lemma primary_grows b direction h : grows b direction h (primary b direction h).
Proof.
  destruct (primary_cases b direction h) as [[Hv ->]|(c & others & Hv & ->)].
  - left. auto.
  - right. exists c, others. auto using size_extend_with.
Qed.

Lemma extendOnce_positions b direction :
  Forall (fits b) (m_haplotypes b) ->
  exists hs',
    extendOnce direction b = Ok (with_haplotypes b hs')
    /\ (length (m_haplotypes b) <= length hs')%nat
    /\ (forall i h, m_haplotypes b !! i = Some h ->
          exists h', hs' !! i = Some h' /\ grows b direction h h')
    /\ (forall i s, (length (m_haplotypes b) <= i)%nat -> hs' !! i = Some s ->
          exists h c, In h (m_haplotypes b)
                      /\ In c (valid_extensions b direction h)
                      /\ s = extend_with direction h c).
Proof.
  intros Hfits. eexists. split; [apply extendOnce_fits; assumption|].
  split; [rewrite length_app, length_map; lia|]. split.
  - intros i h Hi. exists (primary b direction h). split.
    + rewrite lookup_app_l by (rewrite length_map; eapply lookup_lt_Some; eauto).
      rewrite list_lookup_fmap, Hi. reflexivity.
    + apply primary_grows.
  - intros i s Hi Hs. rewrite lookup_app_r in Hs by (rewrite length_map; lia).
    apply list_elem_of_lookup_2, list_elem_of_In in Hs.
    apply staged_spec. exact Hs.
Qed.

Lemma grows_fits b direction h h' :
  fits b h -> size h + 1 < 2 ^ 64 -> grows b direction h h' -> fits b h'.
Proof.
  unfold fits. intros [Hk Hs] Hroom [[_ ->]|(c & others & _ & _ & Hsz)]; lia.
Qed.

(** C5.  Growth: in one directional pass every pre-existing candidate keeps
    its position and either stalls unchanged (no valid extension) or becomes
    itself plus one symbol, and the set does not get smaller; so in a round
    without a cull (forward pass, then reverse pass) each candidate grows by
    one symbol per direction in which it has a valid extension, and nothing
    is shortened or removed. *)
Theorem extendOnce_growth b :
  (forall direction,
     Forall (fits b) (m_haplotypes b) ->
     exists b',
       extendOnce direction b = Ok b'
       /\ (length (m_haplotypes b) <= length (m_haplotypes b'))%nat
       /\ forall i h, m_haplotypes b !! i = Some h ->
            exists h', m_haplotypes b' !! i = Some h' /\ grows b direction h h')
  /\ (forall round,
       Z.rem round 10 <> 0 ->
       Forall (fun h => fits b h /\ size h + 1 < 2 ^ 64) (m_haplotypes b) ->
       exists b1 b2,
         extendOnce ED_SENSE b = Ok b1
         /\ extendOnce ED_ANTISENSE b1 = Ok b2
         /\ run_round round b = Ok b2
         /\ (length (m_haplotypes b) <= length (m_haplotypes b1)
             <= length (m_haplotypes b2))%nat
         /\ forall i h, m_haplotypes b !! i = Some h ->
              exists h1 h2,
                m_haplotypes b1 !! i = Some h1
                /\ m_haplotypes b2 !! i = Some h2
                /\ grows b ED_SENSE h h1 /\ grows b1 ED_ANTISENSE h1 h2).
Proof.
  split.
  - intros direction Hfits.
    destruct (extendOnce_positions b direction Hfits) as (hs' & He & Hlen & Hpos & _).
    exists (with_haplotypes b hs'). auto.
  - intros round Hround Hroom.
    assert (Hfits : Forall (fits b) (m_haplotypes b)).
    { eapply Forall_impl; [exact Hroom|]. intros h [H _]. exact H. }
    destruct (extendOnce_positions b ED_SENSE Hfits)
      as (hs1 & He1 & Hlen1 & Hpos1 & Hnew1).
    set (b1 := with_haplotypes b hs1) in *.
    assert (Hfits1 : Forall (fits b1) (m_haplotypes b1)).
    { apply Forall_lookup. intros i h1 Hi. simpl in Hi.
      destruct (decide (i < length (m_haplotypes b))%nat) as [Hlt|Hge].
      - destruct (lookup_lt_is_Some_2 _ _ Hlt) as [h Hh].
        destruct (Hpos1 _ _ Hh) as (h1' & Hh1 & Hg).
        rewrite Hi in Hh1. injection Hh1 as <-.
        pose proof (proj1 (Forall_lookup _ _) Hroom _ _ Hh) as [Hf Hr].
        exact (grows_fits b ED_SENSE h h1 Hf Hr Hg).
      - destruct (Hnew1 i h1 ltac:(lia) Hi) as (h & c & Hin & _ & ->).
        apply list_elem_of_In in Hin.
        pose proof (proj1 (Forall_forall _ _) Hroom _ Hin) as [[Hk Hs] Hr].
        unfold fits. rewrite size_extend_with. simpl. lia. }
    destruct (extendOnce_positions b1 ED_ANTISENSE Hfits1)
      as (hs2 & He2 & Hlen2 & Hpos2 & _).
    exists b1, (with_haplotypes b1 hs2).
    split; [exact He1|]. split; [exact He2|]. split.
    { unfold run_round. rewrite He1. simpl. rewrite He2. simpl.
      destruct (Z.eqb_spec (Z.rem round 10) 0); [contradiction|reflexivity]. }
    split; [simpl in *; lia|].
    intros i h Hh. destruct (Hpos1 _ _ Hh) as (h1 & Hh1 & Hg1).
    destruct (Hpos2 i h1 Hh1) as (h2 & Hh2 & Hg2).
    exists h1, h2. auto.
Qed.

(** C8.  Stall: a candidate whose anchor has no count reaching the threshold
    (an empty answer included) has no valid extension; the pass succeeds,
    leaves that candidate unchanged at its position, and removes nothing. *)
Theorem extendOnce_stall b direction l1 h l2 :
  m_haplotypes b = l1 ++ h :: l2 ->
  Forall (fits b) (m_haplotypes b) ->
  (forall c, In c DNA_ALPHABET ->
     calculateDeBruijnExtensionsSingleIndex (anchor b direction h) direction c
     < m_kmerThreshold b) ->
  exists b',
    extendOnce direction b = Ok b'
    /\ valid_extensions b direction h = []
    /\ m_haplotypes b' !! length l1 = Some h
    /\ (length (m_haplotypes b) <= length (m_haplotypes b'))%nat.
Proof.
  intros Hhs Hfits Hlow.
  assert (Hv : valid_extensions b direction h = []).
  { rewrite valid_extensions_filter.
    destruct (List.filter _ _) as [|c l] eqn:Hf; [reflexivity|].
    assert (Hin : In c (List.filter (is_valid_base b direction h) DNA_ALPHABET))
      by (rewrite Hf; left; reflexivity).
    apply filter_In in Hin as [Hin Hc]. specialize (Hlow c Hin).
    unfold is_valid_base in Hc. apply Z.leb_le in Hc. lia. }
  destruct (extendOnce_positions b direction Hfits) as (hs' & He & Hlen & Hpos & _).
  exists (with_haplotypes b hs'). split; [exact He|]. split; [exact Hv|].
  split; [|exact Hlen].
  destruct (Hpos (length l1) h) as (h' & Hh' & Hg).
  { rewrite Hhs. apply list_lookup_middle. reflexivity. }
  destruct Hg as [[_ ->]|(c & others & Hv' & _)]; [exact Hh'|congruence].
Qed.

(** ** Facts about the Cull Step *)

Lemma cull_each_filter b hs :
  Forall (fun h => is_Ok (calculateHaplotypeIncoherency b h)) hs ->
  cull_each b hs = Ok (List.filter (within_gap b) hs).
Proof.
  induction 1 as [|h rest [s Hs] _ IH]; simpl; [reflexivity|].
  unfold within_gap at 1. rewrite Hs, IH. simpl.
  destruct (Z.ltb_spec 20 s), (Z.leb_spec s 20); try lia; reflexivity.
Qed.

Lemma cullHaplotypes_filter b :
  Forall (fun h => is_Ok (calculateHaplotypeIncoherency (with_fresh_reads b) h))
         (m_haplotypes b) ->
  cullHaplotypes b
  = Ok (with_haplotypes (with_fresh_reads b)
          (List.filter (within_gap (with_fresh_reads b)) (m_haplotypes b))).
Proof.
  intros Hs. unfold cullHaplotypes. fold (with_fresh_reads b).
  change (m_haplotypes (with_fresh_reads b)) with (m_haplotypes b).
  rewrite (cull_each_filter _ _ Hs). reflexivity.
Qed.

Lemma filter_all {A} (p : A -> bool) (l : list A) :
  (forall x, In x l -> p x = true) -> List.filter p l = l.
Proof.
  induction l as [|x l IH]; simpl; intros Hall; [reflexivity|].
  rewrite (Hall x) by auto. f_equal. apply IH. auto.
Qed.

Lemma filter_sublist {A} (p : A -> bool) (l : list A) :
  sublist (List.filter p l) l.
Proof.
  induction l as [|x l IH]; simpl; [constructor|].
  destruct (p x); [apply sublist_skip | apply sublist_cons]; exact IH.
Qed.

Lemma filter_position {A} (p : A -> bool) (l1 l2 : list A) x :
  p x = true ->
  List.filter p (l1 ++ x :: l2) !! length (List.filter p l1) = Some x
  /\ (length (List.filter p l1) <= length l1)%nat.
Proof.
  intros Hx. split.
  - rewrite List.filter_app. simpl. rewrite Hx.
    apply list_lookup_middle. reflexivity.
  - apply (sublist_length _ _ (filter_sublist p l1)).
Qed.

Lemma max_jump_loop_step start_vector bound i max_jump :
  max_jump_loop start_vector bound i max_jump
  = if decide (i < bound) then
      match at_index start_vector (i + 1), at_index start_vector i with
      | Ok hi, Ok lo =>
          let jump := wrap_int (hi - lo) in
          max_jump_loop start_vector bound (i + 1)
            (if max_jump <? jump then jump else max_jump)
      | Fault f, _ => Fault f
      | _, Fault f => Fault f
      end
    else Ok max_jump.
Proof.
  rewrite max_jump_loop_equation_1.
  destruct (decide (i < bound)); simpl; [|reflexivity].
  rewrite max_jump_loop_clause_1_clause_2_equation_1.
  destruct (at_index start_vector (i + 1)), (at_index start_vector i);
    reflexivity.
Qed.

Lemma at_index_in_range {A} (v : list A) i :
  0 <= i < size v -> is_Ok (at_index v i).
Proof.
  intros Hi. unfold at_index.
  destruct (Z.leb_spec 0 i), (Z.ltb_spec i (size v)); try lia. simpl.
  destruct (lookup_lt_is_Some_2 v (Z.to_nat i)) as [x Hx].
  - unfold size in *. lia.
  - rewrite Hx. eexists. reflexivity.
Qed.

(** On a vector that is not empty the loop stays in range and returns. *)
Lemma max_jump_loop_total start_vector (n : nat) : forall i max_jump,
  0 <= i -> i + Z.of_nat n = size start_vector - 1 ->
  is_Ok (max_jump_loop start_vector (size start_vector - 1) i max_jump).
Proof.
  induction n as [|n IH]; intros i m Hi Hn; rewrite max_jump_loop_step.
  - destruct (decide (i < size start_vector - 1)); [lia|]. eexists. reflexivity.
  - destruct (decide (i < size start_vector - 1)); [|lia].
    destruct (at_index_in_range start_vector (i + 1)) as [hi ->]; [lia|].
    destruct (at_index_in_range start_vector i) as [lo ->]; [lia|].
    simpl. apply IH; lia.
Qed.

Lemma max_jump_loop_empty :
  max_jump_loop [] (wrap_size (size (@nil Z) - 1)) 0 0 = Fault OutOfBounds.
Proof. reflexivity. Qed.

Lemma max_jump_loop_single x :
  max_jump_loop [x] (wrap_size (size [x] - 1)) 0 0 = Ok 0.
Proof. reflexivity. Qed.

(** ** Claims about the Cull Step *)

(** C3.  Whenever every candidate has an Incoherency Score, the Cull Step
    keeps, in order, exactly the candidates whose score is at most 20 and
    removes exactly those whose score exceeds 20; if every score is at most
    20 the candidate list is unchanged. *)
Theorem cullHaplotypes_exact b :
  Forall (fun h => is_Ok (calculateHaplotypeIncoherency (with_fresh_reads b) h))
         (m_haplotypes b) ->
  exists b',
    cullHaplotypes b = Ok b'
    /\ m_haplotypes b'
       = List.filter (within_gap (with_fresh_reads b)) (m_haplotypes b)
    /\ (forall h, In h (m_haplotypes b') <->
          In h (m_haplotypes b)
          /\ exists s, calculateHaplotypeIncoherency (with_fresh_reads b) h = Ok s
                       /\ s <= 20)
    /\ (forall h, In h (m_haplotypes b) -> ~ In h (m_haplotypes b') ->
          exists s, calculateHaplotypeIncoherency (with_fresh_reads b) h = Ok s
                    /\ 20 < s)
    /\ ((forall h s, In h (m_haplotypes b) ->
           calculateHaplotypeIncoherency (with_fresh_reads b) h = Ok s -> s <= 20) ->
        m_haplotypes b' = m_haplotypes b
        /\ length (m_haplotypes b') = length (m_haplotypes b)).
Proof.
  intros Hscored. eexists. split; [apply cullHaplotypes_filter; assumption|].
  simpl. split; [reflexivity|].
  assert (Hkeep : forall h, In h (m_haplotypes b) ->
            within_gap (with_fresh_reads b) h = true <->
            exists s, calculateHaplotypeIncoherency (with_fresh_reads b) h = Ok s
                      /\ s <= 20).
  { intros h Hin. unfold within_gap.
    destruct (calculateHaplotypeIncoherency (with_fresh_reads b) h) as [s|f].
    - rewrite Z.leb_le. split; [eauto|]. intros (s' & [= <-] & Hle). exact Hle.
    - split; [discriminate|]. intros (s' & [=] & _). }
  split; [|split].
  - intros h. rewrite filter_In. split.
    + intros [Hin Hk]. split; [exact Hin|]. apply Hkeep; assumption.
    + intros [Hin Hs]. split; [exact Hin|]. apply Hkeep; assumption.
  - intros h Hin Hout. rewrite filter_In in Hout.
    apply list_elem_of_In in Hin as Hin'.
    destruct (proj1 (Forall_forall _ _) Hscored h Hin') as [s Hs].
    exists s. split; [exact Hs|].
    destruct (Z.le_gt_cases s 20) as [Hle|Hgt]; [|lia].
    exfalso. apply Hout. split; [exact Hin|]. apply Hkeep; eauto.
  - intros Hall.
    assert (Heq : List.filter (within_gap (with_fresh_reads b)) (m_haplotypes b)
                  = m_haplotypes b).
    { apply filter_all. intros h Hin. apply Hkeep; [exact Hin|].
      apply list_elem_of_In in Hin as Hin'.
      destruct (proj1 (Forall_forall _ _) Hscored h Hin') as [s Hs].
      exists s. split; [exact Hs|]. eapply Hall; eauto. }
    rewrite Heq. auto.
Qed.

(** ** Facts about the mismatch scan *)

Lemma wrap_size_small z : 0 <= z < 2 ^ 64 -> wrap_size z = z.
Proof. intros H. unfold wrap_size. apply Z.mod_small. exact H. Qed.

Lemma wrap_int_small z : 0 <= z < 2 ^ 31 -> wrap_int z = z.
Proof. intros H. unfold wrap_int. rewrite Z.mod_small; lia. Qed.

Lemma size_cons {A} (x : A) l : size (x :: l) = size l + 1.
Proof. unfold size. simpl. lia. Qed.

Lemma size_seqZ m n : 0 <= n -> size (seqZ m n) = n.
Proof. intros H. unfold size. rewrite length_seqZ. lia. Qed.

Lemma In_seqZ x m n : In x (seqZ m n) <-> m <= x < m + n.
Proof. rewrite <- list_elem_of_In. apply elem_of_seqZ. Qed.

Lemma mismatch_at_spec haplotype read j k :
  0 <= j -> 0 <= k -> j + k < 2 ^ 64 ->
  mismatch_at haplotype read j k
  = if spec_is_mismatch haplotype read j k then 1 else 0.
Proof.
  intros Hj Hk Hjk. unfold mismatch_at, spec_is_mismatch, same_char.
  rewrite wrap_size_small by lia.
  destruct (Z.ltb_spec (j + k) (size haplotype)),
           (Z.leb_spec (size haplotype) (j + k)); try lia; simpl; [|reflexivity].
  destruct (haplotype !! Z.to_nat (j + k)), (read !! Z.to_nat k);
    try reflexivity.
  destruct (Ascii.eqb _ _); reflexivity.
Qed.

Lemma foldl_count (p : Z -> bool) (g : Z -> Z) (l : list Z) : forall acc,
  (forall k, In k l -> g k = if p k then 1 else 0) ->
  0 <= acc -> acc + size l < 2 ^ 64 ->
  foldl (fun m k => wrap_size (m + g k)) acc l = acc + size (List.filter p l).
Proof.
  induction l as [|k l IH]; intros acc Hg Hacc Hroom; simpl.
  - unfold size. simpl. lia.
  - rewrite size_cons in Hroom. pose proof (size_nonneg l).
    assert (Hk : g k = if p k then 1 else 0) by (apply Hg; left; reflexivity).
    rewrite wrap_size_small by (rewrite Hk; destruct (p k); lia).
    rewrite IH.
    + rewrite Hk. destruct (p k); rewrite ?size_cons; lia.
    + intros k' Hin. apply Hg. right. exact Hin.
    + rewrite Hk. destruct (p k); lia.
    + rewrite Hk. destruct (p k); lia.
Qed.

Lemma count_mismatches_spec haplotype read j :
  0 <= j -> j + size read < 2 ^ 64 ->
  count_mismatches haplotype read j = spec_score haplotype read j.
Proof.
  intros Hj Hroom. unfold count_mismatches, spec_score.
  pose proof (size_nonneg read).
  rewrite (foldl_count (spec_is_mismatch haplotype read j)).
  - lia.
  - intros k Hin. apply In_seqZ in Hin. apply mismatch_at_spec; lia.
  - lia.
  - rewrite size_seqZ; lia.
Qed.

Lemma spec_score_bound haplotype read j :
  0 <= spec_score haplotype read j <= size read.
Proof.
  unfold spec_score. split; [apply size_nonneg|].
  pose proof (sublist_length _ _
    (filter_sublist (spec_is_mismatch haplotype read j) (seqZ 0 (size read)))) as Hl.
  rewrite length_seqZ in Hl. unfold size in *. lia.
Qed.

Lemma min_mismatches_le_start haplotype read offsets : forall start,
  min_mismatches haplotype read start offsets <= start.
Proof.
  unfold min_mismatches.
  induction offsets as [|j l IH]; intros start; simpl; [lia|].
  specialize (IH (Z.min start (count_mismatches haplotype read j))). lia.
Qed.

Lemma min_mismatches_le haplotype read offsets : forall start j,
  In j offsets ->
  min_mismatches haplotype read start offsets <= count_mismatches haplotype read j.
Proof.
  unfold min_mismatches.
  induction offsets as [|j0 l IH]; intros start j Hin; simpl; [destruct Hin|].
  destruct Hin as [->|Hin].
  - pose proof (min_mismatches_le_start haplotype read l
                  (Z.min start (count_mismatches haplotype read j))) as H.
    unfold min_mismatches in H. lia.
  - apply IH. exact Hin.
Qed.

Lemma min_mismatches_attained haplotype read offsets : forall start,
  min_mismatches haplotype read start offsets = start
  \/ exists j, In j offsets
       /\ count_mismatches haplotype read j
          = min_mismatches haplotype read start offsets.
Proof.
  unfold min_mismatches.
  induction offsets as [|j0 l IH]; intros start; simpl; [left; reflexivity|].
  destruct (IH (Z.min start (count_mismatches haplotype read j0)))
    as [Heq|(j & Hin & Hj)].
  - rewrite Heq.
    destruct (Z.min_spec start (count_mismatches haplotype read j0))
      as [[_ ->]|[_ ->]]; [left; reflexivity|].
    right. exists j0. auto.
  - right. exists j. auto.
Qed.

(** The scan keeps the running minimum and the offsets that reach it, in the
    order visited. *)
Lemma scan_fold haplotype read offsets : forall best_mismatches starts,
  let m := min_mismatches haplotype read best_mismatches offsets in
  foldl (scan_step haplotype read) (best_mismatches, starts) offsets
  = (m, (if m <? best_mismatches then [] else starts)
        ++ List.filter (fun j => count_mismatches haplotype read j =? m) offsets).
Proof.
  induction offsets as [|j l IH]; intros bm starts; simpl.
  - unfold min_mismatches. simpl. rewrite Z.ltb_irrefl, app_nil_r. reflexivity.
  - unfold min_mismatches in *. simpl.
    set (fj := count_mismatches haplotype read j) in *.
    assert (Hstart : forall start,
              foldl (fun m j => Z.min m (count_mismatches haplotype read j)) start l
              <= start)
      by (intros start; apply (min_mismatches_le_start haplotype read l start)).
    destruct (Z.ltb_spec fj bm) as [Hlt|Hge];
      [|destruct (Z.eqb_spec fj bm) as [Heq|Hne]]; rewrite IH.
    + replace (Z.min bm fj) with fj by lia.
      specialize (Hstart fj). set (M := foldl _ fj l) in *. f_equal.
      destruct (Z.ltb_spec M bm); [|lia].
      destruct (Z.ltb_spec M fj), (Z.eqb_spec fj M); try lia; reflexivity.
    + replace (Z.min bm fj) with bm by lia.
      specialize (Hstart bm). set (M := foldl _ bm l) in *. f_equal.
      destruct (Z.ltb_spec M bm), (Z.eqb_spec fj M); try lia;
        rewrite <- ?app_assoc; reflexivity.
    + replace (Z.min bm fj) with bm by lia.
      specialize (Hstart bm). set (M := foldl _ bm l) in *. f_equal.
      destruct (Z.eqb_spec fj M); [lia|reflexivity].
Qed.

Lemma best_starts_spec haplotype read :
  size haplotype + size read < 2 ^ 64 ->
  best_starts haplotype read = spec_best_offsets haplotype read.
Proof.
  intros Hroom. unfold best_starts, scan_starts, spec_best_offsets.
  pose proof (size_nonneg read) as Hr.
  rewrite scan_fold. simpl.
  set (offsets := seqZ 0 (size haplotype)).
  set (M := min_mismatches haplotype read SIZE_MAX offsets).
  assert (Hscore : forall j, In j offsets ->
            count_mismatches haplotype read j = spec_score haplotype read j).
  { intros j Hin. apply In_seqZ in Hin. apply count_mismatches_spec; lia. }
  replace (if M <? SIZE_MAX then [] else []) with (@nil Z)
    by (destruct (M <? SIZE_MAX); reflexivity).
  simpl. apply List.filter_ext_in. intros j Hin.
  apply eq_true_iff_eq. rewrite Z.eqb_eq, forallb_forall.
  split.
  - intros Hj j' Hin'. apply Z.leb_le.
    rewrite <- !Hscore by assumption. rewrite Hj.
    apply min_mismatches_le. exact Hin'.
  - intros Hall.
    pose proof (min_mismatches_le haplotype read offsets SIZE_MAX j Hin) as Hle.
    fold M in Hle.
    destruct (min_mismatches_attained haplotype read offsets SIZE_MAX)
      as [Hs|(j0 & Hin0 & Hj0)]; [fold M in Hs | fold M in Hj0].
    + pose proof (spec_score_bound haplotype read j) as Hb.
      rewrite <- Hscore in Hb by assumption.
      apply In_seqZ in Hin. unfold SIZE_MAX in *. lia.
    + specialize (Hall j0 Hin0). apply Z.leb_le in Hall.
      rewrite <- !Hscore in Hall by assumption. lia.
Qed.

Lemma place_fold b haplotype read offsets : forall start_vector,
  0 <= m_maxEditDistance b < 2 ^ 31 ->
  foldl (place_step b haplotype read) start_vector offsets
  = start_vector
    ++ map match0_start
         (List.filter (fun overlap => edit_distance overlap <=? m_maxEditDistance b)
            (map (fun j => extendMatch haplotype read j 0 2) offsets)).
Proof.
  induction offsets as [|j l IH]; intros sv Hmax; simpl.
  - rewrite app_nil_r. reflexivity.
  - rewrite IH by assumption. unfold place_step.
    rewrite wrap_int_small by assumption.
    destruct (edit_distance _ <=? _); simpl;
      rewrite <- ?app_assoc; reflexivity.
Qed.

Lemma place_read_spec b haplotype read start_vector :
  0 <= m_maxEditDistance b < 2 ^ 31 ->
  size haplotype + size read < 2 ^ 64 ->
  place_read b haplotype start_vector read
  = start_vector ++ spec_placements b haplotype read.
Proof.
  intros Hmax Hroom. unfold place_read, spec_placements.
  rewrite place_fold by assumption.
  rewrite best_starts_spec by assumption. reflexivity.
Qed.

Lemma collect_fold b haplotype reads : forall start_vector,
  0 <= m_maxEditDistance b < 2 ^ 31 ->
  Forall (fun read => size haplotype + size read < 2 ^ 64) reads ->
  foldl (place_read b haplotype) start_vector reads
  = start_vector ++ concat (map (spec_placements b haplotype) reads).
Proof.
  induction reads as [|r rest IH]; intros sv Hmax Hroom; simpl.
  - rewrite app_nil_r. reflexivity.
  - apply Forall_cons in Hroom as [Hr Hrest].
    rewrite place_read_spec by assumption.
    rewrite IH by assumption. rewrite <- app_assoc. reflexivity.
Qed.

Lemma incoherency_no_placements b haplotype :
  collect_starts b haplotype = [] ->
  calculateHaplotypeIncoherency b haplotype = Fault OutOfBounds.
Proof.
  intros H. unfold calculateHaplotypeIncoherency. rewrite H.
  exact max_jump_loop_empty.
Qed.

Lemma incoherency_one_placement b haplotype x :
  collect_starts b haplotype = [x] ->
  calculateHaplotypeIncoherency b haplotype = Ok 0.
Proof.
  intros H. unfold calculateHaplotypeIncoherency. rewrite H.
  exact (max_jump_loop_single x).
Qed.

(** With at least one accepted placement the candidate has a score. *)
Lemma incoherency_defined b haplotype :
  collect_starts b haplotype <> [] ->
  size (collect_starts b haplotype) <= 2 ^ 64 ->
  is_Ok (calculateHaplotypeIncoherency b haplotype).
Proof.
  intros Hne Hsz. unfold calculateHaplotypeIncoherency.
  set (sv := merge_sort Z.le (collect_starts b haplotype)).
  assert (Hlen : size sv = size (collect_starts b haplotype)).
  { unfold size, sv. f_equal. apply Permutation_length, merge_sort_Permutation. }
  assert (Hpos : 1 <= size sv).
  { rewrite Hlen. destruct (collect_starts b haplotype); [congruence|].
    rewrite size_cons. pose proof (size_nonneg l). lia. }
  rewrite wrap_size_small by lia.
  apply (max_jump_loop_total sv (Z.to_nat (size sv - 1))); lia.
Qed.

Lemma cull_each_fault b h rest f :
  calculateHaplotypeIncoherency b h = Fault f ->
  cull_each b (h :: rest) = Fault f.
Proof. intros H. simpl. rewrite H. reflexivity. Qed.

(** C6.  The mismatch scan: for every read, the count computed for a start
    offset is the number of read positions that fall past the candidate's
    end or hold a different symbol; the offsets kept are exactly the offsets
    [0 .. size - 1] of minimal score, in increasing order; and the start
    coordinates recorded for the read are those of the alignments at these
    offsets whose edit distance is at most the maximum. *)
Theorem mismatch_scan_placements b haplotype :
  0 <= m_maxEditDistance b < 2 ^ 31 ->
  Forall (fun read => size haplotype + size read < 2 ^ 64) (m_reads b) ->
  (forall read, In read (m_reads b) ->
     (forall j, 0 <= j < size haplotype ->
        count_mismatches haplotype read j = spec_score haplotype read j)
     /\ best_starts haplotype read = spec_best_offsets haplotype read
     /\ (forall j, In j (best_starts haplotype read) <->
           0 <= j < size haplotype
           /\ forall j', 0 <= j' < size haplotype ->
                spec_score haplotype read j <= spec_score haplotype read j')
     /\ forall start_vector,
          place_read b haplotype start_vector read
          = start_vector ++ spec_placements b haplotype read)
  /\ collect_starts b haplotype
     = concat (map (spec_placements b haplotype) (m_reads b)).
Proof.
  intros Hmax Hroom. split.
  - intros read Hin. apply list_elem_of_In in Hin as Hin'.
    pose proof (proj1 (Forall_forall _ _) Hroom read Hin') as Hr.
    cbv beta in Hr. pose proof (size_nonneg read) as Hnn.
    split; [intros j Hj; apply count_mismatches_spec; lia|].
    split; [apply best_starts_spec; exact Hr|].
    split; [|intros sv; apply place_read_spec; assumption].
    intros j. rewrite best_starts_spec by exact Hr.
    unfold spec_best_offsets. rewrite filter_In, In_seqZ, forallb_forall.
    split.
    + intros [Hj Hall]. split; [lia|]. intros j' Hj'.
      apply Z.leb_le, Hall, In_seqZ. lia.
    + intros [Hj Hall]. split; [lia|]. intros j' Hj'.
      apply Z.leb_le, Hall. apply In_seqZ in Hj'. lia.
  - unfold collect_starts. rewrite collect_fold by assumption. reflexivity.
Qed.

(** ** Order of the candidate list *)

(** C10.  An extension pass leaves every pre-existing candidate at its own
    index (stalled or grown by one symbol) and puts every new branch at an
    index past all of them; a cull keeps the survivors in their relative
    order, so a survivor's index is the number of surviving predecessors,
    never more than its old index. *)
Theorem candidate_order_preserved b :
  (forall direction,
     Forall (fits b) (m_haplotypes b) ->
     exists b',
       extendOnce direction b = Ok b'
       /\ (forall i h, m_haplotypes b !! i = Some h ->
             exists h', m_haplotypes b' !! i = Some h' /\ grows b direction h h')
       /\ (forall i s, (length (m_haplotypes b) <= i)%nat ->
             m_haplotypes b' !! i = Some s ->
             exists h c, In h (m_haplotypes b)
                         /\ In c (valid_extensions b direction h)
                         /\ s = extend_with direction h c))
  /\ (Forall (fun h => is_Ok (calculateHaplotypeIncoherency (with_fresh_reads b) h))
             (m_haplotypes b) ->
      exists b',
        cullHaplotypes b = Ok b'
        /\ sublist (m_haplotypes b') (m_haplotypes b)
        /\ forall l1 h l2,
             m_haplotypes b = l1 ++ h :: l2 ->
             within_gap (with_fresh_reads b) h = true ->
             m_haplotypes b'
               !! length (List.filter (within_gap (with_fresh_reads b)) l1)
             = Some h
             /\ (length (List.filter (within_gap (with_fresh_reads b)) l1)
                 <= length l1)%nat).
Proof.
  split.
  - intros direction Hfits.
    destruct (extendOnce_positions b direction Hfits) as (hs' & He & _ & Hpos & Hnew).
    exists (with_haplotypes b hs'). auto.
  - intros Hscored. eexists. split; [apply cullHaplotypes_filter; assumption|].
    simpl. split; [apply filter_sublist|].
    intros l1 h l2 -> Hkeep. apply filter_position. exact Hkeep.
Qed.

(** ** The round loop *)

Lemma bind_Ok {A B} (a : A) (f : A -> result B) : (Ok a ≫= f) = f a.
Proof. reflexivity. Qed.

Lemma exec_app steps1 steps2 b :
  exec (steps1 ++ steps2) b = (exec steps1 b ≫= exec steps2).
Proof.
  revert b. induction steps1 as [|s rest IH]; intros b; simpl; [reflexivity|].
  destruct (do_step s b) as [b'|f]; simpl; [apply IH|reflexivity].
Qed.

Lemma run_round_steps round b :
  0 <= round -> run_round round b = exec (round_steps round) b.
Proof.
  intros Hr. unfold run_round, round_steps. rewrite Z.rem_mod_nonneg by lia.
  simpl. destruct (extendOnce ED_SENSE b) as [b1|f]; simpl; [|reflexivity].
  destruct (extendOnce ED_ANTISENSE b1) as [b2|f]; simpl; [|reflexivity].
  destruct (round mod 10 =? 0); simpl; [|reflexivity].
  destruct (cullHaplotypes b2); reflexivity.
Qed.

Lemma run_loop_step round b :
  run_loop round b
  = if decide (round < MAX_ROUNDS)
    then run_round (round + 1) b ≫= run_loop (round + 1)
    else Ok b.
Proof.
  rewrite run_loop_equation_1.
  destruct (decide (round < MAX_ROUNDS)); simpl; [|reflexivity].
  destruct (run_round (round + 1) b); reflexivity.
Qed.

(** From any round counter in range, the loop runs the remaining rounds. *)
Lemma run_loop_rounds (n : nat) : forall round b,
  0 <= round -> round + Z.of_nat n = MAX_ROUNDS ->
  run_loop round b
  = exec (concat (map round_steps (seqZ (round + 1) (Z.of_nat n)))) b.
Proof.
  induction n as [|n IH]; intros round b Hr Hn; rewrite run_loop_step.
  - destruct (decide (round < MAX_ROUNDS)); [lia|reflexivity].
  - destruct (decide (round < MAX_ROUNDS)); [|lia].
    rewrite seqZ_cons by lia. rewrite map_cons, concat_cons.
    rewrite exec_app, <- run_round_steps by lia.
    destruct (run_round (round + 1) b) as [b'|f]; simpl; [|reflexivity].
    rewrite (IH (round + 1) b') by lia.
    do 4 f_equal; lia.
Qed.

Lemma run_loop_schedule b : run_loop 0 b = exec schedule b.
Proof. apply (run_loop_rounds 100); unfold MAX_ROUNDS; lia. Qed.

(** ** Further facts about the Extension Step *)

Lemma query_kmer_antisense b h :
  query_kmer b ED_ANTISENSE h
  = Ok (take (Z.to_nat (Z.min (m_kmer b) (size h))) h).
Proof.
  unfold query_kmer, substr. pose proof (size_nonneg h).
  destruct (Z.ltb_spec (size h) 0); [lia|].
  rewrite drop_0, Z.sub_0_r. reflexivity.
Qed.

Lemma query_kmer_sense_short b h :
  0 <= m_kmer b < 2 ^ 64 -> size h < m_kmer b ->
  query_kmer b ED_SENSE h = Fault OutOfRange.
Proof.
  intros Hk Hshort. pose proof (size_nonneg h).
  unfold query_kmer, substr, wrap_size.
  assert (Hwrap : (size h - m_kmer b) mod 2 ^ 64 = size h - m_kmer b + 2 ^ 64).
  { symmetry. apply Z.mod_unique with (q := -1); lia. }
  rewrite Hwrap.
  destruct (Z.ltb_spec (size h) (size h - m_kmer b + 2 ^ 64)); [reflexivity|lia].
Qed.

Lemma extend_each_cons b direction h rest incoming :
  extend_each b direction (h :: rest) incoming
  = (kmer ← query_kmer b direction h;
     let '(h', incoming') :=
       extend_one direction h (extensionBases b direction kmer) incoming in
     '(rest', incoming'') ← extend_each b direction rest incoming';
     Ok (h' :: rest', incoming'')).
Proof. reflexivity. Qed.

Lemma extend_each_antisense_Ok b hs : forall incoming,
  is_Ok (extend_each b ED_ANTISENSE hs incoming).
Proof.
  induction hs as [|h rest IH]; intros incoming.
  - eexists. reflexivity.
  - rewrite extend_each_cons, query_kmer_antisense. cbn [mbind result_bind].
    destruct (extend_one ED_ANTISENSE h _ incoming) as [h' incoming'].
    destruct (IH incoming') as [[rest' inc''] ->]. eexists. reflexivity.
Qed.

Lemma extend_each_sense_short b hs : forall incoming,
  0 <= m_kmer b < 2 ^ 64 ->
  Forall (fun h => size h < 2 ^ 64) hs ->
  Exists (fun h => size h < m_kmer b) hs ->
  extend_each b ED_SENSE hs incoming = Fault OutOfRange.
Proof.
  induction hs as [|h rest IH]; intros incoming Hk Hsz Hex.
  - inversion Hex.
  - apply Forall_cons in Hsz as [Hh Hrest]. rewrite extend_each_cons.
    destruct (Z.lt_ge_cases (size h) (m_kmer b)) as [Hshort|Hlong].
    + rewrite query_kmer_sense_short by assumption. reflexivity.
    + rewrite query_kmer_fits by (unfold fits; lia). cbn [mbind result_bind].
      destruct (extend_one ED_SENSE h _ incoming) as [h' incoming'].
      rewrite IH; [reflexivity|assumption|assumption|].
      inversion Hex; subst; [lia|assumption].
Qed.

Lemma short_or_long k (hs : list str) :
  Exists (fun h => size h < k) hs \/ Forall (fun h => k <= size h) hs.
Proof.
  induction hs as [|h l IH]; [right; constructor|].
  destruct (Z.lt_ge_cases (size h) k) as [?|?];
    [left; constructor; assumption|].
  destruct IH as [?|?]; [left; constructor 2; assumption|].
  right. constructor; assumption.
Qed.

(** X1.  Which passes throw.  A forward pass ends in [std::out_of_range]
    exactly when some candidate is shorter than the k-mer length, because
    [length() - m_kmer] wraps to a start position past the end; otherwise it
    returns.  A backward pass never throws: [substr(0, m_kmer)] of a shorter
    candidate is the whole candidate. *)
Theorem extendOnce_throws b :
  0 <= m_kmer b < 2 ^ 64 ->
  Forall (fun h => size h < 2 ^ 64) (m_haplotypes b) ->
  (extendOnce ED_SENSE b = Fault OutOfRange
   <-> Exists (fun h => size h < m_kmer b) (m_haplotypes b))
  /\ (is_Ok (extendOnce ED_SENSE b)
      <-> Forall (fun h => m_kmer b <= size h) (m_haplotypes b))
  /\ is_Ok (extendOnce ED_ANTISENSE b)
  /\ (forall h, size h < m_kmer b -> query_kmer b ED_ANTISENSE h = Ok h).
Proof.
  intros Hk Hsz.
  assert (Hshort : Exists (fun h => size h < m_kmer b) (m_haplotypes b) ->
                   extendOnce ED_SENSE b = Fault OutOfRange).
  { intros Hex. unfold extendOnce.
    rewrite extend_each_sense_short by assumption. reflexivity. }
  assert (Hlong : Forall (fun h => m_kmer b <= size h) (m_haplotypes b) ->
                  is_Ok (extendOnce ED_SENSE b)).
  { intros Hall. rewrite extendOnce_fits; [eexists; reflexivity|].
    apply Forall_forall. intros h Hin. unfold fits.
    pose proof (proj1 (Forall_forall _ _) Hall h Hin).
    pose proof (proj1 (Forall_forall _ _) Hsz h Hin). cbv beta in *. lia. }
  pose proof (short_or_long (m_kmer b) (m_haplotypes b)) as Hdec.
  split; [|split; [|split]].
  - split; [|exact Hshort]. intros Hf.
    destruct Hdec as [?|Hall]; [assumption|].
    destruct (Hlong Hall) as [b' Hb']. congruence.
  - split; [|exact Hlong]. intros [b' Hb'].
    destruct Hdec as [Hex|?]; [|assumption].
    rewrite (Hshort Hex) in Hb'. discriminate.
  - unfold extendOnce.
    destruct (extend_each_antisense_Ok b (m_haplotypes b) [])
      as [[live incoming] ->].
    simpl. eexists. reflexivity.
  - intros h Hh. rewrite query_kmer_antisense. pose proof (size_nonneg h).
    f_equal. apply take_ge. unfold size in *. lia.
Qed.

(** ** Further facts about the placements *)

Lemma best_starts_filter haplotype read :
  best_starts haplotype read
  = List.filter
      (fun j => count_mismatches haplotype read j
                =? min_mismatches haplotype read SIZE_MAX
                     (seqZ 0 (size haplotype)))
      (seqZ 0 (size haplotype)).
Proof.
  unfold best_starts, scan_starts. rewrite scan_fold. simpl.
  destruct (_ <? SIZE_MAX); reflexivity.
Qed.

Lemma place_fold_provenance b haplotype read offsets : forall start_vector x,
  In x (foldl (place_step b haplotype read) start_vector offsets) ->
  In x start_vector
  \/ exists j, In j offsets
       /\ edit_distance (extendMatch haplotype read j 0 2)
          <= wrap_int (m_maxEditDistance b)
       /\ x = match0_start (extendMatch haplotype read j 0 2).
Proof.
  induction offsets as [|j l IH]; intros sv x Hin; simpl in Hin; [left; exact Hin|].
  destruct (IH _ _ Hin) as [Hsv|(j' & Hj' & Hed & ->)].
  - unfold place_step in Hsv.
    destruct (Z.leb_spec (edit_distance (extendMatch haplotype read j 0 2))
                (wrap_int (m_maxEditDistance b))); [|left; exact Hsv].
    apply in_app_or in Hsv as [Hsv|[<-|[]]]; [left; exact Hsv|].
    right. exists j. split; [left; reflexivity|]. auto.
  - right. exists j'. split; [right; exact Hj'|]. auto.
Qed.

Lemma place_fold_length b haplotype read offsets : forall start_vector,
  (length (foldl (place_step b haplotype read) start_vector offsets)
   <= length start_vector + length offsets)%nat.
Proof.
  induction offsets as [|j l IH]; intros sv; simpl; [lia|].
  etransitivity; [apply IH|]. unfold place_step.
  destruct (_ <=? _); rewrite ?length_app; simpl; lia.
Qed.

Lemma best_starts_length haplotype read :
  (length (best_starts haplotype read) <= length haplotype)%nat.
Proof.
  rewrite best_starts_filter.
  etransitivity; [apply sublist_length, filter_sublist|].
  rewrite length_seqZ. unfold size. lia.
Qed.

Lemma collect_fold_length b haplotype reads : forall start_vector,
  (length (foldl (place_read b haplotype) start_vector reads)
   <= length start_vector + length reads * length haplotype)%nat.
Proof.
  induction reads as [|r rest IH]; intros sv; simpl; [lia|].
  etransitivity; [apply IH|]. unfold place_read.
  pose proof (place_fold_length b haplotype r (best_starts haplotype r) sv).
  pose proof (best_starts_length haplotype r). lia.
Qed.

Lemma collect_fold_provenance b haplotype reads : forall start_vector x,
  In x (foldl (place_read b haplotype) start_vector reads) ->
  In x start_vector
  \/ exists read j, In read reads /\ In j (best_starts haplotype read)
       /\ edit_distance (extendMatch haplotype read j 0 2)
          <= wrap_int (m_maxEditDistance b)
       /\ x = match0_start (extendMatch haplotype read j 0 2).
Proof.
  induction reads as [|r rest IH]; intros sv x Hin; simpl in Hin; [left; exact Hin|].
  destruct (IH _ _ Hin) as [Hsv|(r' & j & Hr' & Hj & Hed & ->)].
  - destruct (place_fold_provenance _ _ _ _ _ _ Hsv) as [?|(j & Hj & Hed & ->)];
      [left; assumption|].
    right. exists r, j. split; [left; reflexivity|]. auto.
  - right. exists r', j. split; [right; exact Hr'|]. auto.
Qed.

(** X2.  What [start_vector] can hold: at most one start per read and start
    position of the candidate; every start recorded is the [match[0].start]
    of the overlap computed at an in-range start position of some read,
    whose edit distance is within the limit; a candidate of length 0, or an
    empty read set, records nothing. *)
Theorem collect_starts_provenance b haplotype :
  (length (collect_starts b haplotype)
   <= length (m_reads b) * length haplotype)%nat
  /\ (forall x, In x (collect_starts b haplotype) ->
        exists read j,
          In read (m_reads b) /\ 0 <= j < size haplotype
          /\ edit_distance (extendMatch haplotype read j 0 2)
             <= wrap_int (m_maxEditDistance b)
          /\ x = match0_start (extendMatch haplotype read j 0 2))
  /\ (haplotype = [] -> collect_starts b haplotype = [])
  /\ (m_reads b = [] -> collect_starts b haplotype = []).
Proof.
  assert (Hlen := collect_fold_length b haplotype (m_reads b) []).
  fold (collect_starts b haplotype) in Hlen. simpl in Hlen.
  split; [exact Hlen|]. split; [|split].
  - intros x Hin. unfold collect_starts in Hin.
    destruct (collect_fold_provenance _ _ _ _ _ Hin)
      as [[]|(read & j & Hr & Hj & Hed & ->)].
    exists read, j. split; [exact Hr|]. split; [|auto].
    rewrite best_starts_filter in Hj. apply filter_In in Hj as [Hj _].
    apply In_seqZ in Hj. lia.
  - intros ->. simpl in Hlen. rewrite Nat.mul_0_r in Hlen.
    destruct (collect_starts b []); [reflexivity|simpl in Hlen; lia].
  - intros Hr. unfold collect_starts. rewrite Hr. reflexivity.
Qed.

(** ** Further facts about the Incoherency Score *)

Lemma wrap_int_signed z : - 2 ^ 31 <= z < 2 ^ 31 -> wrap_int z = z.
Proof. intros H. unfold wrap_int. rewrite Z.mod_small; lia. Qed.

Lemma at_index_lookup {A} (v : list A) i x :
  0 <= i -> v !! Z.to_nat i = Some x -> at_index v i = Ok x.
Proof.
  intros Hi Hx. unfold at_index. rewrite Hx.
  apply lookup_lt_Some in Hx.
  destruct (Z.leb_spec 0 i), (Z.ltb_spec i (size v)); unfold size in *;
    try lia; reflexivity.
Qed.

Lemma adjacent_gaps_lookup v i lo hi :
  v !! i = Some lo -> v !! S i = Some hi ->
  adjacent_gaps v !! i = Some (hi - lo).
Proof.
  intros Hlo Hhi. unfold adjacent_gaps.
  rewrite lookup_zip_with, Hlo, lookup_drop. simpl. rewrite Hhi. reflexivity.
Qed.

Lemma max_jump_loop_gaps start_vector (n : nat) : forall i max_jump,
  Forall (fun s => 0 <= s < 2 ^ 31) start_vector ->
  0 <= i -> i + Z.of_nat n = size start_vector - 1 ->
  max_jump_loop start_vector (size start_vector - 1) i max_jump
  = Ok (foldl Z.max max_jump (drop (Z.to_nat i) (adjacent_gaps start_vector))).
Proof.
  induction n as [|n IH]; intros i m Hb Hi Hn; rewrite max_jump_loop_step.
  - destruct (decide (i < size start_vector - 1)); [lia|].
    rewrite drop_ge; [reflexivity|].
    unfold adjacent_gaps. rewrite length_zip_with, length_drop.
    unfold size in *. lia.
  - destruct (decide (i < size start_vector - 1)); [|lia].
    destruct (lookup_lt_is_Some_2 start_vector (Z.to_nat i)) as [lo Hlo];
      [unfold size in *; lia|].
    destruct (lookup_lt_is_Some_2 start_vector (S (Z.to_nat i))) as [hi Hhi];
      [unfold size in *; lia|].
    rewrite (at_index_lookup start_vector (i + 1) hi)
      by (rewrite ?Z2Nat.inj_add, ?Nat.add_1_r by lia; first [lia|exact Hhi]).
    rewrite (at_index_lookup start_vector i lo) by assumption.
    cbv zeta.
    pose proof (proj1 (Forall_lookup _ _) Hb _ _ Hlo) as Blo.
    pose proof (proj1 (Forall_lookup _ _) Hb _ _ Hhi) as Bhi.
    cbv beta in Blo, Bhi.
    rewrite wrap_int_signed by lia.
    rewrite IH by (try assumption; lia).
    rewrite (drop_S _ _ _ (adjacent_gaps_lookup _ _ _ _ Hlo Hhi)). simpl.
    replace (Z.to_nat (i + 1)) with (S (Z.to_nat i)) by lia.
    do 2 f_equal.
    destruct (Z.ltb_spec m (hi - lo)); lia.
Qed.

Lemma foldl_max_ge_init l : forall m, m <= foldl Z.max m l.
Proof.
  induction l as [|g l IH]; intros m; simpl; [lia|].
  specialize (IH (Z.max m g)). lia.
Qed.

Lemma foldl_max_ge l : forall m g, In g l -> g <= foldl Z.max m l.
Proof.
  induction l as [|g0 l IH]; intros m g Hin; simpl; [destruct Hin|].
  destruct Hin as [->|Hin]; [|apply IH; exact Hin].
  pose proof (foldl_max_ge_init l (Z.max m g)). lia.
Qed.

Lemma foldl_max_attained l : forall m,
  foldl Z.max m l = m \/ In (foldl Z.max m l) l.
Proof.
  induction l as [|g l IH]; intros m; simpl; [left; reflexivity|].
  destruct (IH (Z.max m g)) as [Heq|Hin]; [|right; right; exact Hin].
  rewrite Heq. destruct (Z.max_spec m g) as [[_ ->]|[_ ->]]; auto.
Qed.

Lemma sorted_gaps_nonneg v :
  Sorted Z.le v -> Forall (fun g => 0 <= g) (adjacent_gaps v).
Proof.
  induction 1 as [|x l Hs IH Hhd]; [constructor|].
  destruct l as [|y l']; [constructor|].
  change (adjacent_gaps (x :: y :: l')) with ((y - x) :: adjacent_gaps (y :: l')).
  constructor; [|exact IH]. inversion Hhd; subst. lia.
Qed.

Lemma merge_sort_size (l : list Z) : size (merge_sort Z.le l) = size l.
Proof. unfold size. f_equal. apply Permutation_length, merge_sort_Permutation. Qed.

(** X3.  The score is the largest gap: for a candidate with at least one
    accepted placement whose start coordinates are non-negative [int]s, the
    value returned is the largest difference between neighbours of the
    sorted start coordinates, and 0 when there is a single coordinate or
    all coordinates coincide. *)
Theorem incoherency_is_max_gap b haplotype :
  let starts := collect_starts b haplotype in
  let sorted := merge_sort Z.le starts in
  starts <> [] ->
  size starts <= 2 ^ 64 ->
  Forall (fun s => 0 <= s < 2 ^ 31) starts ->
  calculateHaplotypeIncoherency b haplotype = Ok (max_gap sorted)
  /\ Sorted Z.le sorted /\ sorted ≡ₚ starts
  /\ (forall g, In g (adjacent_gaps sorted) -> 0 <= g <= max_gap sorted)
  /\ (max_gap sorted = 0 \/ In (max_gap sorted) (adjacent_gaps sorted)).
Proof.
  intros starts sorted Hne Hsz Hb.
  assert (Hperm : sorted ≡ₚ starts) by apply merge_sort_Permutation.
  assert (Hsorted : Sorted Z.le sorted) by (apply Sorted_merge_sort; apply _).
  assert (Hsize : size sorted = size starts) by apply merge_sort_size.
  assert (Hpos : 1 <= size sorted).
  { rewrite Hsize. destruct starts; [congruence|].
    rewrite size_cons. pose proof (size_nonneg starts). lia. }
  assert (Hb' : Forall (fun s => 0 <= s < 2 ^ 31) sorted)
    by (rewrite Hperm; exact Hb).
  split; [|split; [exact Hsorted|split; [exact Hperm|split]]].
  - unfold calculateHaplotypeIncoherency. fold starts. fold sorted.
    rewrite wrap_size_small by lia.
    rewrite (max_jump_loop_gaps sorted (Z.to_nat (size sorted - 1)))
      by (try assumption; lia).
    reflexivity.
  - intros g Hg. split.
    + apply list_elem_of_In in Hg.
      exact (proj1 (Forall_forall _ _) (sorted_gaps_nonneg _ Hsorted) g Hg).
    + apply foldl_max_ge. exact Hg.
  - apply foldl_max_attained.
Qed.

Lemma incoherency_fault_inv b haplotype f :
  size (collect_starts b haplotype) <= 2 ^ 64 ->
  calculateHaplotypeIncoherency b haplotype = Fault f ->
  f = OutOfBounds /\ collect_starts b haplotype = [].
Proof.
  intros Hsz Hf.
  destruct (collect_starts b haplotype) as [|x l] eqn:Hs.
  - rewrite (incoherency_no_placements _ _ Hs) in Hf. injection Hf as <-. auto.
  - destruct (incoherency_defined b haplotype) as [s Hok];
      [rewrite Hs; discriminate|rewrite Hs; exact Hsz|congruence].
Qed.

Lemma cull_each_returns b hs :
  Forall (fun h => size (collect_starts b h) <= 2 ^ 64) hs ->
  (Forall (fun h => collect_starts b h <> []) hs -> is_Ok (cull_each b hs))
  /\ (Exists (fun h => collect_starts b h = []) hs ->
      cull_each b hs = Fault OutOfBounds).
Proof.
  induction hs as [|h rest IH]; intros Hsz.
  - split; [intros _; eexists; reflexivity|]. intros Hex. inversion Hex.
  - apply Forall_cons in Hsz as [Hh Hrest]. destruct (IH Hrest) as [IHok IHf].
    split.
    + intros Hall. apply Forall_cons in Hall as [Hne Hall].
      destruct (incoherency_defined b h Hne Hh) as [s Hs].
      destruct (IHok Hall) as [rest' Hr]. simpl. rewrite Hs, Hr.
      eexists. reflexivity.
    + intros Hex. simpl.
      destruct (calculateHaplotypeIncoherency b h) as [s|f] eqn:Hc.
      * simpl. inversion Hex as [? ? He|? ? He]; subst.
        -- rewrite (incoherency_no_placements _ _ He) in Hc. discriminate.
        -- rewrite (IHf He). reflexivity.
      * destruct (incoherency_fault_inv _ _ _ Hh Hc) as [-> _]. reflexivity.
Qed.

Lemma placed_or_not b (hs : list str) :
  Exists (fun h => collect_starts b h = []) hs
  \/ Forall (fun h => collect_starts b h <> []) hs.
Proof.
  induction hs as [|h l IH]; [right; constructor|].
  destruct (collect_starts b h) eqn:Hs.
  - left. constructor. exact Hs.
  - destruct IH as [?|?]; [left; constructor 2; assumption|].
    right. constructor; [congruence|assumption].
Qed.

(** X4.  When a cull returns: it returns normally exactly when every
    candidate has at least one accepted placement among the freshly fetched
    reads, and ends in the out-of-bounds read exactly when some candidate
    has none.  (The bound on the read set keeps [start_vector.size()] a
    [size_t].) *)
Theorem cullHaplotypes_returns b :
  let fresh := with_fresh_reads b in
  Forall (fun h => size (m_reads fresh) * size h <= 2 ^ 64) (m_haplotypes b) ->
  (is_Ok (cullHaplotypes b)
   <-> Forall (fun h => collect_starts fresh h <> []) (m_haplotypes b))
  /\ (cullHaplotypes b = Fault OutOfBounds
      <-> Exists (fun h => collect_starts fresh h = []) (m_haplotypes b)).
Proof.
  intros fresh Hroom.
  assert (Hsz : Forall (fun h => size (collect_starts fresh h) <= 2 ^ 64)
                  (m_haplotypes b)).
  { eapply Forall_impl; [exact Hroom|]. intros h Hh. cbv beta in *.
    pose proof (collect_fold_length fresh h (m_reads fresh) []) as Hlen.
    fold (collect_starts fresh h) in Hlen. cbn [length Nat.add] in Hlen.
    apply Nat2Z.inj_le in Hlen. rewrite Nat2Z.inj_mul in Hlen.
    unfold size in *. lia. }
  destruct (cull_each_returns fresh (m_haplotypes b) Hsz) as [Hok Hfault].
  assert (Hcull : cullHaplotypes b
                  = (cull_each fresh (m_haplotypes b)
                     ≫= fun hs => Ok (with_haplotypes fresh hs)))
    by reflexivity.
  assert (Hok' : Forall (fun h => collect_starts fresh h <> []) (m_haplotypes b) ->
                 is_Ok (cullHaplotypes b)).
  { intros Hall. destruct (Hok Hall) as [hs Hhs]. rewrite Hcull, Hhs.
    eexists. reflexivity. }
  assert (Hfault' : Exists (fun h => collect_starts fresh h = []) (m_haplotypes b) ->
                    cullHaplotypes b = Fault OutOfBounds).
  { intros Hex. rewrite Hcull, (Hfault Hex). reflexivity. }
  destruct (placed_or_not fresh (m_haplotypes b)) as [Hex|Hall].
  - split; split; auto.
    intros [b' Hb']. rewrite (Hfault' Hex) in Hb'. discriminate.
  - split; split; auto.
    intros Hf. destruct (Hok' Hall) as [b' Hb']. congruence.
Qed.

(** ** Further facts about branching *)

Lemma valid_extensions_length b direction h :
  (length (valid_extensions b direction h) <= length DNA_ALPHABET)%nat.
Proof.
  rewrite valid_extensions_filter. apply sublist_length, filter_sublist.
Qed.

Lemma branches_length b direction h :
  (1 + length (branches b direction h)
   = Nat.max 1 (length (valid_extensions b direction h)))%nat.
Proof.
  unfold branches. destruct (valid_extensions b direction h) as [|c others];
    simpl; rewrite ?length_map; lia.
Qed.

Lemma pass_count b direction hs :
  (length (map (primary b direction) hs)
   + length (concat (map (branches b direction) hs))
   = sum_list (map (fun h => Nat.max 1 (length (valid_extensions b direction h)))
                   hs))%nat.
Proof.
  induction hs as [|h rest IH]; simpl; [reflexivity|].
  rewrite length_app. pose proof (branches_length b direction h). lia.
Qed.

Lemma sum_list_bound {A} (f : A -> nat) (n : nat) (l : list A) :
  (forall x, 1 <= f x <= n)%nat ->
  (length l <= sum_list (map f l) <= length l * n)%nat.
Proof.
  intros Hf. induction l as [|x l IH]; simpl; [lia|].
  specialize (Hf x). lia.
Qed.

(** X5.  Fan-out of a pass: the pass replaces each candidate by as many
    sequences as it has valid extension symbols, and by itself when it has
    none; so the candidate list never shrinks and grows at most by the
    factor of the alphabet size. *)
Theorem extendOnce_count b direction :
  Forall (fits b) (m_haplotypes b) ->
  exists b',
    extendOnce direction b = Ok b'
    /\ length (m_haplotypes b')
       = sum_list
           (map (fun h => Nat.max 1 (length (valid_extensions b direction h)))
                (m_haplotypes b))
    /\ (length (m_haplotypes b) <= length (m_haplotypes b')
        <= length (m_haplotypes b) * Nat.max 1 (length DNA_ALPHABET))%nat.
Proof.
  intros Hfits. eexists. split; [apply extendOnce_fits; exact Hfits|].
  simpl. rewrite length_app, pass_count. split; [reflexivity|].
  apply sum_list_bound. intros h.
  pose proof (valid_extensions_length b direction h). lia.
Qed.

Lemma anchor_sense_nat b h :
  0 <= m_kmer b <= size h ->
  anchor b ED_SENSE h = drop (length h - Z.to_nat (m_kmer b)) h.
Proof. intros Hk. unfold anchor, size in *. f_equal. lia. Qed.

(** X6.  The anchors walk the de Bruijn graph: after a forward extension by
    [c] the next forward anchor is the old one without its first symbol,
    followed by [c]; after a backward extension by [c] the next backward
    anchor is [c] followed by the old one without its last symbol; and an
    extension at one end leaves the anchor of the other end unchanged. *)
Theorem query_kmer_shift b h c :
  1 <= m_kmer b <= size h -> size h + 1 < 2 ^ 64 ->
  (exists first rest,
     query_kmer b ED_SENSE h = Ok (first :: rest)
     /\ query_kmer b ED_SENSE (extend_with ED_SENSE h c) = Ok (rest ++ [c]))
  /\ (exists init last,
        query_kmer b ED_ANTISENSE h = Ok (init ++ [last])
        /\ query_kmer b ED_ANTISENSE (extend_with ED_ANTISENSE h c)
           = Ok (c :: init))
  /\ query_kmer b ED_ANTISENSE (extend_with ED_SENSE h c)
     = query_kmer b ED_ANTISENSE h
  /\ query_kmer b ED_SENSE (extend_with ED_ANTISENSE h c)
     = query_kmer b ED_SENSE h.
Proof.
  intros Hk Hroom.
  assert (Hfit : fits b h) by (unfold fits; lia).
  assert (Hfit' : forall direction, fits b (extend_with direction h c))
    by (intros direction; unfold fits; rewrite size_extend_with; lia).
  rewrite !query_kmer_fits by auto.
  rewrite !anchor_sense_nat by (rewrite ?size_extend_with; lia).
  unfold anchor, extend_with.
  set (k := Z.to_nat (m_kmer b)).
  assert (Hkn : (1 <= k <= length h)%nat) by (unfold size, k in *; lia).
  clearbody k. clear Hk Hroom Hfit Hfit'.
  split; [|split; [|split]].
  - destruct (lookup_lt_is_Some_2 h (length h - k)) as [first Hfirst]; [lia|].
    exists first, (drop (S (length h - k)) h).
    split; [f_equal; apply drop_S; exact Hfirst|].
    rewrite length_app. simpl. f_equal.
    replace (length h + 1 - k)%nat with (S (length h - k)) by lia.
    rewrite drop_app_le by lia. reflexivity.
  - destruct k as [|k']; [lia|].
    destruct (lookup_lt_is_Some_2 h k') as [last Hlast]; [lia|].
    exists (take k' h), last.
    split; [f_equal; apply take_S_r; exact Hlast|reflexivity].
  - f_equal. apply take_app_le. lia.
  - f_equal. simpl length.
    replace (S (length h) - k)%nat with (S (length h - k)) by lia.
    reflexivity.
Qed.

(** ** The order of the reads *)

Lemma place_fold_app b haplotype read offsets : forall start_vector,
  foldl (place_step b haplotype read) start_vector offsets
  = start_vector ++ foldl (place_step b haplotype read) [] offsets.
Proof.
  induction offsets as [|j l IH]; intros sv; simpl.
  - rewrite app_nil_r. reflexivity.
  - rewrite IH. rewrite (IH (place_step b haplotype read [] j)).
    unfold place_step. destruct (_ <=? _); simpl;
      rewrite <- ?app_assoc; reflexivity.
Qed.

Lemma place_read_app b haplotype start_vector read :
  place_read b haplotype start_vector read
  = start_vector ++ place_read b haplotype [] read.
Proof. unfold place_read. apply place_fold_app. Qed.

Lemma collect_fold_app b haplotype reads : forall start_vector,
  foldl (place_read b haplotype) start_vector reads
  = start_vector ++ flat_map (place_read b haplotype []) reads.
Proof.
  induction reads as [|r rest IH]; intros sv; simpl.
  - rewrite app_nil_r. reflexivity.
  - rewrite IH, place_read_app, <- app_assoc. reflexivity.
Qed.

Lemma collect_starts_with_reads b haplotype reads :
  collect_starts (with_reads b reads) haplotype
  = flat_map (place_read b haplotype []) reads.
Proof. unfold collect_starts. simpl. apply (collect_fold_app b). Qed.

Lemma merge_sort_perm (l1 l2 : list Z) :
  l1 ≡ₚ l2 -> merge_sort Z.le l1 = merge_sort Z.le l2.
Proof.
  intros Hp. apply (Sorted_unique Z.le).
  - apply Sorted_merge_sort. apply _.
  - apply Sorted_merge_sort. apply _.
  - rewrite !merge_sort_Permutation. exact Hp.
Qed.

(** X7.  The order of the reads does not matter: two read sets that are
    permutations of each other give every candidate the same score (or the
    same fault), and a cull over either keeps the same candidates. *)
Theorem incoherency_read_order b reads1 reads2 :
  reads1 ≡ₚ reads2 ->
  (forall haplotype,
     calculateHaplotypeIncoherency (with_reads b reads1) haplotype
     = calculateHaplotypeIncoherency (with_reads b reads2) haplotype)
  /\ (forall hs,
        cull_each (with_reads b reads1) hs = cull_each (with_reads b reads2) hs).
Proof.
  intros Hp.
  assert (Hcalc : forall haplotype,
            calculateHaplotypeIncoherency (with_reads b reads1) haplotype
            = calculateHaplotypeIncoherency (with_reads b reads2) haplotype).
  { intros haplotype. unfold calculateHaplotypeIncoherency.
    rewrite !collect_starts_with_reads.
    rewrite (merge_sort_perm _ _
               (Permutation_flat_map (place_read b haplotype []) Hp)).
    reflexivity. }
  split; [exact Hcalc|].
  induction hs as [|h rest IH]; simpl; [reflexivity|].
  rewrite Hcalc, IH. reflexivity.
Qed.

(** ** Reads that occur verbatim *)

Lemma occurs_at_lookup (haplotype read : list ascii) j :
  0 <= j ->
  occurs_at haplotype read j
  <-> forall k, (k < length read)%nat ->
        haplotype !! (Z.to_nat j + k)%nat = read !! k.
Proof.
  intros Hj. unfold occurs_at. split.
  - intros Heq k Hk. rewrite <- lookup_drop.
    rewrite <- (lookup_take_lt _ (length read)) by exact Hk.
    rewrite Heq. reflexivity.
  - intros Hall. apply list_eq. intros k.
    destruct (decide (k < length read)%nat) as [Hk|Hk].
    + rewrite lookup_take_lt by exact Hk. rewrite lookup_drop. apply Hall, Hk.
    + rewrite lookup_take_ge by lia. symmetry. apply lookup_ge_None. lia.
Qed.

Lemma spec_is_mismatch_false (haplotype read : list ascii) j k :
  0 <= j -> 0 <= k < size read ->
  spec_is_mismatch haplotype read j k = false
  <-> haplotype !! (Z.to_nat j + Z.to_nat k)%nat = read !! Z.to_nat k.
Proof.
  intros Hj Hk. unfold spec_is_mismatch. unfold str.
  replace (Z.to_nat (j + k)) with (Z.to_nat j + Z.to_nat k)%nat by lia.
  destruct (lookup_lt_is_Some_2 read (Z.to_nat k)) as [c Hc];
    [unfold size in *; lia|].
  rewrite Hc.
  destruct (Z.leb_spec (size haplotype) (j + k)) as [Hout|Hin]; simpl.
  - split; [discriminate|]. intros Hl.
    apply lookup_lt_Some in Hl. unfold size in *. lia.
  - destruct (haplotype !! (Z.to_nat j + Z.to_nat k)%nat) as [a|];
      [|split; discriminate].
    destruct (Ascii.eqb_spec a c) as [->|Hne]; simpl; split; try reflexivity;
      try discriminate.
    intros [= ->]. contradiction.
Qed.

Lemma filter_nil_iff {A} (p : A -> bool) (l : list A) :
  List.filter p l = [] <-> forall x, In x l -> p x = false.
Proof.
  induction l as [|x l IH]; simpl; [split; [intros _ ? []|reflexivity]|].
  destruct (p x) eqn:Hx.
  - split; [discriminate|]. intros Hall. specialize (Hall x (or_introl eq_refl)).
    congruence.
  - rewrite IH. split.
    + intros Hall y [<-|Hy]; auto.
    + intros Hall y Hy. apply Hall. right. exact Hy.
Qed.

Lemma spec_score_zero haplotype read j :
  0 <= j -> spec_score haplotype read j = 0 <-> occurs_at haplotype read j.
Proof.
  intros Hj. unfold spec_score.
  rewrite (occurs_at_lookup _ _ _ Hj).
  assert (Hz : forall l : list Z, size l = 0 <-> l = []).
  { intros [|x l]; [split; reflexivity|].
    rewrite size_cons. pose proof (size_nonneg l). split; [lia|discriminate]. }
  rewrite Hz, filter_nil_iff. split.
  - intros Hall k Hk.
    specialize (Hall (Z.of_nat k)).
    rewrite In_seqZ, spec_is_mismatch_false in Hall by (unfold size; lia).
    rewrite Nat2Z.id in Hall. apply Hall. unfold size. lia.
  - intros Hall k Hk. apply In_seqZ in Hk.
    apply spec_is_mismatch_false; [lia|lia|].
    apply Hall. unfold size in *. lia.
Qed.

(** X8.  A read that occurs verbatim somewhere in the candidate has as its
    best start positions exactly the positions where it occurs verbatim. *)
Theorem best_starts_of_exact_read haplotype read j0 :
  size haplotype + size read < 2 ^ 64 ->
  0 <= j0 < size haplotype ->
  occurs_at haplotype read j0 ->
  forall j, In j (best_starts haplotype read)
            <-> 0 <= j < size haplotype /\ occurs_at haplotype read j.
Proof.
  intros Hroom Hj0 Hocc j.
  rewrite best_starts_spec by exact Hroom.
  unfold spec_best_offsets. rewrite filter_In, In_seqZ, forallb_forall.
  assert (H0 : spec_score haplotype read j0 = 0)
    by (apply spec_score_zero; [lia|exact Hocc]).
  split.
  - intros [Hj Hall]. split; [lia|].
    apply spec_score_zero; [lia|].
    specialize (Hall j0). rewrite In_seqZ, Z.leb_le in Hall.
    pose proof (spec_score_bound haplotype read j). lia.
  - intros [Hj Hoccj]. split; [lia|]. intros j' _. apply Z.leb_le.
    apply spec_score_zero in Hoccj; [|lia].
    pose proof (spec_score_bound haplotype read j'). lia.
Qed.

(** ** What a run can return *)

Lemma extend_one_inv direction h bases incoming :
  exists new,
    extend_one direction h bases incoming
    = (match bases with [] => h | c :: _ => extend_with direction h c end,
       incoming ++ new)
    /\ Forall (fun s => exists c, s = extend_with direction h c) new.
Proof.
  destruct bases as [|c [|c' others]]; simpl.
  - exists []. rewrite app_nil_r. split; [reflexivity|constructor].
  - exists []. rewrite app_nil_r. split; [reflexivity|constructor].
  - exists (map (extend_with direction h) (c' :: others)).
    split; [reflexivity|]. apply Forall_forall. intros s Hs.
    apply list_elem_of_In, in_map_iff in Hs as (x & <- & _). eauto.
Qed.

Lemma extend_each_inv b direction hs : forall incoming live incoming',
  extend_each b direction hs incoming = Ok (live, incoming') ->
  Forall2 (fun h h' => h' = h \/ exists c, h' = extend_with direction h c)
          hs live
  /\ exists staged,
       incoming' = incoming ++ staged
       /\ Forall (fun s => exists h c, In h hs /\ s = extend_with direction h c)
                 staged.
Proof.
  induction hs as [|h rest IH]; intros incoming live incoming' He.
  - injection He as <- <-. split; [constructor|].
    exists []. rewrite app_nil_r. split; [reflexivity|constructor].
  - rewrite extend_each_cons in He.
    destruct (query_kmer b direction h) as [kmer|f]; [|discriminate].
    cbn [mbind result_bind] in He.
    destruct (extend_one_inv direction h (extensionBases b direction kmer)
                incoming) as (new & Hone & Hnew).
    rewrite Hone in He.
    destruct (extend_each b direction rest (incoming ++ new))
      as [[rest' inc'']|f] eqn:Hrest; [|discriminate].
    cbn [mbind result_bind] in He. injection He as <- <-.
    destruct (IH _ _ _ Hrest) as (Hlive & staged & -> & Hstaged).
    split.
    + constructor; [|exact Hlive].
      destruct (extensionBases b direction kmer); eauto.
    + exists (new ++ staged). split; [rewrite app_assoc; reflexivity|].
      apply Forall_app. split.
      * eapply Forall_impl; [exact Hnew|]. intros s [c ->].
        exists h, c. split; [left; reflexivity|reflexivity].
      * eapply Forall_impl; [exact Hstaged|]. intros s (h' & c & Hin & ->).
        exists h', c. split; [right; exact Hin|reflexivity].
Qed.

Lemma around_mono seed n m n' m' h :
  (n <= n')%nat -> (m <= m')%nat -> around seed n m h -> around seed n' m' h.
Proof.
  intros Hn Hm (pre & post & -> & Hpre & Hpost).
  exists pre, post. split; [reflexivity|]. lia.
Qed.

Lemma around_extend seed n m h c direction :
  around seed n m h ->
  around seed (match direction with ED_SENSE => n | ED_ANTISENSE => S n end)
              (match direction with ED_SENSE => S m | ED_ANTISENSE => m end)
              (extend_with direction h c).
Proof.
  intros (pre & post & -> & Hpre & Hpost). destruct direction; simpl.
  - exists pre, (post ++ [c]). rewrite <- !app_assoc, length_app. simpl.
    split; [reflexivity|]. lia.
  - exists (c :: pre), post. simpl. split; [reflexivity|]. lia.
Qed.

Lemma Forall2_transfer {A B} (R : A -> B -> Prop) (P : A -> Prop)
    (Q : B -> Prop) (l : list A) (l' : list B) :
  Forall2 R l l' -> Forall P l ->
  (forall x y, P x -> R x y -> Q y) -> Forall Q l'.
Proof.
  intros HR HP Himp. induction HR as [|x y l l' Hxy _ IH]; [constructor|].
  apply Forall_cons in HP as [Hx Hl]. constructor; eauto.
Qed.

Lemma extendOnce_around seed n m direction b b' :
  extendOnce direction b = Ok b' ->
  Forall (around seed n m) (m_haplotypes b) ->
  Forall (around seed
            (match direction with ED_SENSE => n | ED_ANTISENSE => S n end)
            (match direction with ED_SENSE => S m | ED_ANTISENSE => m end))
         (m_haplotypes b').
Proof.
  intros He Hall. unfold extendOnce in He.
  destruct (extend_each b direction (m_haplotypes b) [])
    as [[live incoming]|f] eqn:Hx; [|discriminate].
  cbn [mbind result_bind] in He. injection He as <-. simpl.
  destruct (extend_each_inv _ _ _ _ _ _ Hx) as (Hlive & staged & -> & Hstaged).
  assert (Hstep : forall h, around seed n m h ->
            around seed
              (match direction with ED_SENSE => n | ED_ANTISENSE => S n end)
              (match direction with ED_SENSE => S m | ED_ANTISENSE => m end) h).
  { intros h. apply around_mono; destruct direction; lia. }
  apply Forall_app. split.
  - eapply Forall2_transfer; [exact Hlive|exact Hall|].
    intros h h' Hah [->|[c ->]]; [apply Hstep; exact Hah|].
    apply around_extend. exact Hah.
  - simpl. eapply Forall_impl; [exact Hstaged|].
    intros s (h & c & Hin & ->). apply around_extend.
    apply list_elem_of_In in Hin.
    exact (proj1 (Forall_forall _ _) Hall h Hin).
Qed.

Lemma cull_each_sublist b hs : forall hs',
  cull_each b hs = Ok hs' -> sublist hs' hs.
Proof.
  induction hs as [|h rest IH]; intros hs' Hc; simpl in Hc.
  - injection Hc as <-. constructor.
  - destruct (calculateHaplotypeIncoherency b h) as [s|f]; [|discriminate].
    cbn [mbind result_bind] in Hc.
    destruct (cull_each b rest) as [rest'|f]; [|discriminate].
    cbn [mbind result_bind] in Hc. injection Hc as <-.
    specialize (IH _ eq_refl).
    destruct (20 <? s); [apply sublist_cons|apply sublist_skip]; exact IH.
Qed.

Lemma cullHaplotypes_sublist b b' :
  cullHaplotypes b = Ok b' -> sublist (m_haplotypes b') (m_haplotypes b).
Proof.
  unfold cullHaplotypes. intros Hc.
  destruct (cull_each _ _) as [hs|f] eqn:Hx; [|discriminate].
  cbn [mbind result_bind] in Hc. injection Hc as <-.
  apply cull_each_sublist in Hx. exact Hx.
Qed.

Lemma run_round_around seed n m round b b' :
  run_round round b = Ok b' ->
  Forall (around seed n m) (m_haplotypes b) ->
  Forall (around seed (S n) (S m)) (m_haplotypes b').
Proof.
  unfold run_round. intros Hr Hall.
  destruct (extendOnce ED_SENSE b) as [b1|f] eqn:H1; [|discriminate].
  cbn [mbind result_bind] in Hr.
  destruct (extendOnce ED_ANTISENSE b1) as [b2|f] eqn:H2; [|discriminate].
  cbn [mbind result_bind] in Hr.
  pose proof (extendOnce_around seed _ _ _ _ _ H1 Hall) as Hall1.
  pose proof (extendOnce_around seed _ _ _ _ _ H2 Hall1) as Hall2.
  cbv iota in Hall2.
  destruct (Z.rem round 10 =? 0).
  - apply cullHaplotypes_sublist in Hr.
    apply Forall_forall. intros h Hh.
    exact (proj1 (Forall_forall _ _) Hall2 h (elem_of_sublist _ _ _ Hh Hr)).
  - injection Hr as <-. exact Hall2.
Qed.

Lemma run_loop_around seed (k : nat) : forall round b b' n m,
  round + Z.of_nat k = MAX_ROUNDS ->
  run_loop round b = Ok b' ->
  Forall (around seed n m) (m_haplotypes b) ->
  Forall (around seed (n + k) (m + k)) (m_haplotypes b').
Proof.
  induction k as [|k IH]; intros round b b' n m Hk Hr Hall;
    rewrite run_loop_step in Hr.
  - destruct (decide (round < MAX_ROUNDS)); [lia|]. injection Hr as <-.
    rewrite !Nat.add_0_r. exact Hall.
  - destruct (decide (round < MAX_ROUNDS)); [|lia].
    destruct (run_round (round + 1) b) as [b1|f] eqn:H1; [|discriminate].
    cbn [mbind result_bind] in Hr.
    pose proof (run_round_around seed _ _ _ _ _ H1 Hall) as Hall1.
    replace (n + S k)%nat with (S n + k)%nat by lia.
    replace (m + S k)%nat with (S m + k)%nat by lia.
    apply (IH (round + 1) b1 b'); [lia|exact Hr|exact Hall1].
Qed.

(** X9.  What a run returns: every sequence returned contains the seed, with
    at most 100 symbols in front of it and at most 100 behind it (one per
    round and direction); nothing unrelated to the seed is ever returned. *)
Theorem run_contains_seed b seed out :
  m_haplotypes b = [seed] ->
  run b = Ok out ->
  forall h, In h out ->
    exists pre post,
      h = pre ++ seed ++ post
      /\ (length pre <= 100)%nat /\ (length post <= 100)%nat
      /\ size seed <= size h <= size seed + 200.
Proof.
  intros Hseed Hrun h Hin. unfold run in Hrun.
  destruct (bool_decide _); [|discriminate].
  destruct (run_loop 0 b) as [b'|f] eqn:Hloop; [|discriminate].
  cbn [mbind result_bind] in Hrun. injection Hrun as <-.
  assert (Hstart : Forall (around seed 0 0) (m_haplotypes b)).
  { rewrite Hseed. constructor; [|constructor].
    exists [], []. rewrite app_nil_r. simpl. auto. }
  pose proof (run_loop_around seed 100 0 b b' 0 0 eq_refl Hloop Hstart) as Hall.
  apply list_elem_of_In in Hin.
  destruct (proj1 (Forall_forall _ _) Hall h Hin) as (pre & post & -> & Hpre & Hpost).
  exists pre, post. split; [reflexivity|]. simpl in Hpre, Hpost.
  split; [exact Hpre|]. split; [exact Hpost|].
  unfold size. rewrite !length_app. lia.
Qed.

(** ** Distinct candidates *)

Lemma extend_with_inj direction h h' c c' :
  extend_with direction h c = extend_with direction h' c' -> h = h' /\ c = c'.
Proof.
  destruct direction; simpl.
  - intros H. apply app_inj_tail in H. exact H.
  - intros [= -> ->]. auto.
Qed.

Lemma descendants_perm b direction hs :
  map (primary b direction) hs ++ concat (map (branches b direction) hs)
  ≡ₚ concat (map (fun h => primary b direction h :: branches b direction h) hs).
Proof.
  induction hs as [|h rest IH]; simpl; [reflexivity|].
  apply perm_skip. rewrite Permutation_app_swap_app.
  apply Permutation_app_head. exact IH.
Qed.

Lemma descendants_of b direction h x :
  In x (primary b direction h :: branches b direction h) ->
  x = h \/ exists c, x = extend_with direction h c.
Proof.
  unfold primary, branches.
  destruct (valid_extensions b direction h) as [|c others]; simpl.
  - intros [<-|[]]. auto.
  - intros [<-|Hin]; [eauto|].
    apply in_map_iff in Hin as (c' & <- & _). eauto.
Qed.

Lemma descendants_NoDup b direction h :
  List.NoDup DNA_ALPHABET ->
  List.NoDup (primary b direction h :: branches b direction h).
Proof.
  intros Ha.
  assert (Hv : List.NoDup (valid_extensions b direction h))
    by (rewrite valid_extensions_filter; apply List.NoDup_filter; exact Ha).
  unfold primary, branches.
  destruct (valid_extensions b direction h) as [|c others].
  - constructor; [intros []|constructor].
  - change (List.NoDup (map (extend_with direction h) (c :: others))).
    apply Finite.Injective_map_NoDup; [|exact Hv].
    intros x y Hxy. apply extend_with_inj in Hxy as [_ Hc]. exact Hc.
Qed.

Lemma all_descendants_NoDup b direction hs :
  List.NoDup DNA_ALPHABET -> List.NoDup hs ->
  Forall (fun h => valid_extensions b direction h <> []) hs ->
  List.NoDup
    (concat (map (fun h => primary b direction h :: branches b direction h) hs)).
Proof.
  intros Ha Hhs Hext. induction hs as [|h rest IH]; [constructor|].
  apply Forall_cons in Hext as [Hh Hrest].
  apply NoDup_ListNoDup, NoDup_cons in Hhs as [Hnotin Hnd].
  apply NoDup_ListNoDup in Hnd.
  rewrite map_cons, concat_cons. apply NoDup_ListNoDup, NoDup_app.
  split; [|split].
  - apply NoDup_ListNoDup, descendants_NoDup. exact Ha.
  - intros x Hx Hx'. apply list_elem_of_In in Hx, Hx'.
    apply in_concat in Hx' as (l & Hl & Hxl).
    apply in_map_iff in Hl as (h' & <- & Hh').
    assert (Hgrown : forall g, valid_extensions b direction g <> [] ->
              In x (primary b direction g :: branches b direction g) ->
              exists c, x = extend_with direction g c).
    { intros g Hg Hin. unfold primary, branches in Hin.
      destruct (valid_extensions b direction g) as [|c others]; [congruence|].
      destruct Hin as [<-|Hin]; [eauto|].
      apply in_map_iff in Hin as (c' & <- & _). eauto. }
    destruct (Hgrown h Hh Hx) as [c ->].
    apply list_elem_of_In in Hh' as Hh''.
    destruct (Hgrown h' (proj1 (Forall_forall _ _) Hrest h' Hh'') Hxl) as [c' Heq].
    apply extend_with_inj in Heq as [-> _].
    apply Hnotin. exact Hh''.
  - apply NoDup_ListNoDup, IH; assumption.
Qed.

(** X15.  No duplicates from branching: when the alphabet lists each base
    once, the candidates are pairwise distinct and every one of them has a
    valid extension, the candidates after the pass are pairwise distinct
    too. *)
Theorem extendOnce_distinct b direction :
  Forall (fits b) (m_haplotypes b) ->
  List.NoDup DNA_ALPHABET ->
  List.NoDup (m_haplotypes b) ->
  Forall (fun h => valid_extensions b direction h <> []) (m_haplotypes b) ->
  exists b',
    extendOnce direction b = Ok b' /\ List.NoDup (m_haplotypes b').
Proof.
  intros Hfits Ha Hnd Hext. eexists.
  split; [apply extendOnce_fits; exact Hfits|]. simpl.
  rewrite descendants_perm. apply all_descendants_NoDup; assumption.
Qed.

(** ** The steps a run completes *)

















End Builder.

(** ** Determinism *)

Section Determinism.

(** Two runs over the same alphabet and aligner, each with its own index.
    The two indexes answer every query alike. *)
Variable DNA_ALPHABET : list ascii.
Variable reverseComplement : str -> str.
Variable extendMatch : str -> str -> Z -> Z -> Z -> SequenceOverlap.
Variables counts1 counts2 : str -> EdgeDir -> AlphaCount64.
Variables reads1 reads2 : list str -> Z -> bool -> Z -> list str.

Hypothesis same_counts :
  forall kmer direction c, counts1 kmer direction c = counts2 kmer direction c.
Hypothesis same_reads :
  forall hs k reverse max, reads1 hs k reverse max = reads2 hs k reverse max.

Lemma extensionBases_same b direction kmer :
  extensionBases DNA_ALPHABET counts1 b direction kmer
  = extensionBases DNA_ALPHABET counts2 b direction kmer.
Proof.
  unfold extensionBases. apply List.filter_ext. intros c.
  rewrite same_counts. reflexivity.
Qed.

Lemma extend_each_same b direction hs : forall incoming,
  extend_each DNA_ALPHABET counts1 b direction hs incoming
  = extend_each DNA_ALPHABET counts2 b direction hs incoming.
Proof.
  induction hs as [|h rest IH]; intros incoming; simpl; [reflexivity|].
  destruct (query_kmer b direction h) as [kmer|f]; simpl; [|reflexivity].
  rewrite extensionBases_same.
  destruct (extend_one direction h _ incoming) as [h' incoming'].
  rewrite IH. reflexivity.
Qed.

Lemma extendOnce_same direction b :
  extendOnce DNA_ALPHABET counts1 direction b
  = extendOnce DNA_ALPHABET counts2 direction b.
Proof. unfold extendOnce. rewrite extend_each_same. reflexivity. Qed.

Lemma cullHaplotypes_same b :
  cullHaplotypes reads1 reverseComplement extendMatch b
  = cullHaplotypes reads2 reverseComplement extendMatch b.
Proof. unfold cullHaplotypes, getReads. rewrite !same_reads. reflexivity. Qed.

Lemma exec_same steps : forall b,
  exec DNA_ALPHABET counts1 reads1 reverseComplement extendMatch steps b
  = exec DNA_ALPHABET counts2 reads2 reverseComplement extendMatch steps b.
Proof.
  induction steps as [|s rest IH]; intros b; simpl; [reflexivity|].
  assert (Hs : do_step DNA_ALPHABET counts1 reads1 reverseComplement extendMatch s b
               = do_step DNA_ALPHABET counts2 reads2 reverseComplement extendMatch s b).
  { destruct s; simpl; [apply extendOnce_same | apply cullHaplotypes_same]. }
  rewrite Hs.
  destruct (do_step DNA_ALPHABET counts2 reads2 reverseComplement extendMatch s b);
    simpl; [apply IH|reflexivity].
Qed.

(** C9.  Determinism: two runs from the same builder state (seed and
    configuration) whose indexes give the same answer to every query return
    the same result: the same candidates in the same order, or the same
    fault. *)
Theorem run_deterministic b :
  run DNA_ALPHABET counts1 reads1 reverseComplement extendMatch b
  = run DNA_ALPHABET counts2 reads2 reverseComplement extendMatch b.
Proof.
  unfold run. destruct (bool_decide _); [|reflexivity].
  rewrite !run_loop_schedule, exec_same. reflexivity.
Qed.

End Determinism.

(** ** The Incoherency Score of sparse evidence *)

(** C4.  A candidate with exactly one accepted placement scores 0 and is
    kept.  With no accepted placement the computation does not return 0:
    the loop bound [start_vector.size() - 1] wraps to [SIZE_MAX], the first
    iteration reads [start_vector[1]] of an empty vector, and the cull that
    asked for the score ends there as well.  The candidate [ACGTACGT] shows
    both: with the read [ACGTACGT] it has one placement, with the read
    [TTTTTTTT], which no alignment accepts, it has none. *)
Theorem incoherency_zero_placements :
  let one := with_fresh_reads Toy.exact_read Toy.reverse_complement Toy.builder in
  let none := with_fresh_reads Toy.unplaceable_reads Toy.reverse_complement
                Toy.builder in
  (collect_starts Toy.align one Toy.seed = [0]
   /\ calculateHaplotypeIncoherency Toy.align one Toy.seed = Ok 0
   /\ cullHaplotypes Toy.exact_read Toy.reverse_complement Toy.align Toy.builder
      = Ok one)
  /\ (m_reads none = [bases "TTTTTTTT"]
      /\ collect_starts Toy.align none Toy.seed = []
      /\ calculateHaplotypeIncoherency Toy.align none Toy.seed
         = Fault OutOfBounds
      /\ calculateHaplotypeIncoherency Toy.align none Toy.seed <> Ok 0
      /\ cullHaplotypes Toy.unplaceable_reads Toy.reverse_complement Toy.align
           Toy.builder
         = Fault OutOfBounds).
Proof.
  intros one none. split.
  - assert (Hone : collect_starts Toy.align one Toy.seed = [0])
      by (vm_compute; reflexivity).
    split; [exact Hone|].
    split; [exact (incoherency_one_placement _ _ _ _ Hone)|].
    vm_compute. reflexivity.
  - assert (Hnone : collect_starts Toy.align none Toy.seed = [])
      by (vm_compute; reflexivity).
    assert (Hfault : calculateHaplotypeIncoherency Toy.align none Toy.seed
                     = Fault OutOfBounds)
      by (apply incoherency_no_placements; exact Hnone).
    split; [reflexivity|]. split; [exact Hnone|]. split; [exact Hfault|].
    split; [rewrite Hfault; discriminate|].
    unfold cullHaplotypes.
    fold (with_fresh_reads Toy.unplaceable_reads Toy.reverse_complement
            Toy.builder).
    fold none. change (m_haplotypes none) with [Toy.seed].
    rewrite (cull_each_fault _ _ _ _ _ Hfault). reflexivity.
Qed.

(** A run whose tenth round meets such a candidate ends in that cull. *)
Lemma run_ends_at_faulting_cull :
  run Toy.alphabet Toy.counts Toy.unplaceable_reads Toy.reverse_complement
    Toy.align Toy.builder
  = Fault OutOfBounds.
Proof. reflexivity. Qed.

(** When it ends there, the run has completed rounds 1 to 9 and the two
    passes of round 10: the first 20 steps of the schedule. *)
Lemma run_completes_up_to_faulting_cull :
  completed Toy.alphabet Toy.counts Toy.unplaceable_reads
    Toy.reverse_complement Toy.align Toy.builder
  = take 20 schedule.
Proof. reflexivity. Qed.

(** ** Applying a variant to a reference window *)

Lemma str_eqb_eq (x y : str) : str_eqb x y = true <-> x = y.
Proof.
  unfold str_eqb. rewrite String.eqb_eq. split; [|intros ->; reflexivity].
  intros H. rewrite <- (list_ascii_of_string_of_list_ascii x),
              <- (list_ascii_of_string_of_list_ascii y), H. reflexivity.
Qed.

Lemma applyVariant_unfold in_ pos ref alt :
  size in_ < 2 ^ 31 ->
  applyVariant in_ pos ref alt
  = if (0 <? pos) && (pos <? size in_) then
      if str_eqb (take (length ref) (drop (Z.to_nat pos) in_)) ref
      then Ok (take (Z.to_nat pos) in_ ++ alt
               ++ drop (Z.to_nat pos + length ref) in_)
      else Fault AssertionFailed
    else Fault AssertionFailed.
Proof.
  intros Hsz. pose proof (size_nonneg in_) as Hnn.
  pose proof (size_nonneg ref) as Hr.
  unfold applyVariant. rewrite wrap_int_small by lia.
  destruct (Z.ltb_spec 0 pos) as [Hpos|]; [|reflexivity].
  destruct (Z.ltb_spec pos (size in_)) as [Hlt|]; [|reflexivity].
  cbn [andb]. rewrite wrap_size_small by lia.
  unfold substr, replace.
  destruct (Z.ltb_spec (size in_) pos); [lia|]. cbn [mbind result_bind].
  assert (Htake : take (Z.to_nat (Z.min (size ref) (size in_ - pos)))
                       (drop (Z.to_nat pos) in_)
                  = take (length ref) (drop (Z.to_nat pos) in_)).
  { destruct (Z.le_gt_cases (size ref) (size in_ - pos)) as [Hle|Hgt].
    - f_equal. unfold size in *. lia.
    - rewrite !take_ge; [reflexivity| |]; rewrite length_drop;
        unfold size in *; lia. }
  rewrite Htake.
  destruct (str_eqb _ ref) eqn:Heq; [|reflexivity].
  apply str_eqb_eq in Heq.
  assert (Hfit : (Z.to_nat pos + length ref <= length in_)%nat).
  { apply (f_equal (@length ascii)) in Heq.
    rewrite length_take, length_drop in Heq. unfold size in *. lia. }
  do 4 f_equal. unfold size in *. lia.
Qed.

(** X10.  When a variant applies: [applyVariant] returns exactly when the
    position lies strictly inside the window ([0 < pos < length]) and the
    reference allele occurs there in full; the result is the window with
    that occurrence replaced by the alternative allele.  In every other
    case, position 0 included, an assertion fails. *)
Theorem applyVariant_returns in_ pos ref alt :
  size in_ < 2 ^ 31 ->
  (forall out,
     applyVariant in_ pos ref alt = Ok out
     <-> 0 < pos < size in_ /\ occurs_at in_ ref pos
         /\ out = take (Z.to_nat pos) in_ ++ alt
                  ++ drop (Z.to_nat pos + length ref) in_)
  /\ (applyVariant in_ pos ref alt = Fault AssertionFailed
      <-> ~ (0 < pos < size in_ /\ occurs_at in_ ref pos)).
Proof.
  intros Hsz. rewrite applyVariant_unfold by exact Hsz. unfold occurs_at.
  destruct (Z.ltb_spec 0 pos) as [Hpos|Hpos];
    [destruct (Z.ltb_spec pos (size in_)) as [Hlt|Hlt]|]; cbn [andb].
  - destruct (str_eqb _ ref) eqn:Heq.
    + apply str_eqb_eq in Heq. split.
      * intros out. split; [intros [= <-]; auto|]. intros (_ & _ & ->). reflexivity.
      * split; [discriminate|]. intros Hn. exfalso. apply Hn. auto.
    + assert (Hne : take (length ref) (drop (Z.to_nat pos) in_) <> ref).
      { intros Heq'. apply str_eqb_eq in Heq'. congruence. }
      split.
      * intros out. split; [discriminate|]. intros (_ & Hocc & _). contradiction.
      * split; [|reflexivity]. intros _ [_ Hocc]. contradiction.
  - split.
    + intros out. split; [discriminate|]. intros (? & _). lia.
    + split; [|reflexivity]. intros _ [? _]. lia.
  - split.
    + intros out. split; [discriminate|]. intros (? & _). lia.
    + split; [|reflexivity]. intros _ [? _]. lia.
Qed.

(** X11.  Reverting a variant: applying at the same position the variant
    with the two alleles exchanged gives the original window back, provided
    the position still lies inside the changed window, which fails only for
    a deletion that reaches the end of the window. *)
Theorem applyVariant_revert in_ pos ref alt out :
  size in_ < 2 ^ 31 -> size out < 2 ^ 31 ->
  applyVariant in_ pos ref alt = Ok out ->
  (alt <> [] \/ pos + size ref < size in_) ->
  applyVariant out pos alt ref = Ok in_.
Proof.
  intros Hsz Hsz' Happ Hroom.
  rewrite applyVariant_unfold in Happ by exact Hsz.
  destruct (Z.ltb_spec 0 pos) as [Hpos|]; [|discriminate].
  destruct (Z.ltb_spec pos (size in_)) as [Hlt|]; [|discriminate].
  cbn [andb] in Happ.
  destruct (str_eqb _ ref) eqn:Heq; [|discriminate].
  apply str_eqb_eq in Heq. injection Happ as <-.
  assert (Hfit : (Z.to_nat pos + length ref <= length in_)%nat).
  { apply (f_equal (@length ascii)) in Heq.
    rewrite length_take, length_drop in Heq. unfold size in *. lia. }
  assert (Hp : length (take (Z.to_nat pos) in_) = Z.to_nat pos).
  { rewrite length_take. unfold size in *. lia. }
  rewrite applyVariant_unfold by exact Hsz'.
  set (p := Z.to_nat pos) in *.
  assert (Hlen : (p < length (take p in_ ++ alt ++ drop (p + length ref) in_))%nat).
  { rewrite !length_app, Hp, length_drop.
    destruct Hroom as [Hne|Hlt'].
    - destruct alt; [congruence|simpl; lia].
    - unfold size in *. lia. }
  destruct (Z.ltb_spec 0 pos); [|lia].
  destruct (Z.ltb_spec pos (size (take p in_ ++ alt ++ drop (p + length ref) in_)));
    [|unfold size in *; lia].
  cbn [andb].
  rewrite drop_app_length' by (symmetry; exact Hp).
  rewrite take_app_length.
  assert (Hrefl : str_eqb alt alt = true) by (apply str_eqb_eq; reflexivity).
  rewrite Hrefl. f_equal.
  rewrite take_app_length' by (symmetry; exact Hp).
  replace (p + length alt)%nat with (length (take p in_ ++ alt))
    by (rewrite length_app, Hp; reflexivity).
  rewrite (app_assoc (take p in_) alt), drop_app_length.
  rewrite <- Heq at 1. rewrite <- drop_drop.
  rewrite take_drop. apply take_drop.
Qed.

(** X12.  What a variant changes: the result is as long as the window minus
    the reference allele plus the alternative allele; the symbols before
    the position and the symbols after the reference allele are unchanged;
    the alternative allele occurs at the position; and a variant whose
    alleles are equal changes nothing. *)
Theorem applyVariant_frame in_ pos ref alt out :
  size in_ < 2 ^ 31 ->
  applyVariant in_ pos ref alt = Ok out ->
  size out = size in_ - size ref + size alt
  /\ take (Z.to_nat pos) out = take (Z.to_nat pos) in_
  /\ occurs_at out alt pos
  /\ drop (Z.to_nat pos + length alt) out
     = drop (Z.to_nat pos + length ref) in_
  /\ (alt = ref -> out = in_).
Proof.
  intros Hsz Happ.
  rewrite applyVariant_unfold in Happ by exact Hsz.
  destruct (Z.ltb_spec 0 pos) as [Hpos|]; [|discriminate].
  destruct (Z.ltb_spec pos (size in_)) as [Hlt|]; [|discriminate].
  cbn [andb] in Happ.
  destruct (str_eqb _ ref) eqn:Heq; [|discriminate].
  apply str_eqb_eq in Heq. injection Happ as <-.
  assert (Hfit : (Z.to_nat pos + length ref <= length in_)%nat).
  { apply (f_equal (@length ascii)) in Heq.
    rewrite length_take, length_drop in Heq. unfold size in *. lia. }
  assert (Hp : length (take (Z.to_nat pos) in_) = Z.to_nat pos).
  { rewrite length_take. unfold size in *. lia. }
  set (p := Z.to_nat pos) in *.
  split; [|split; [|split; [|split]]].
  - unfold size. rewrite !length_app, Hp, length_drop. lia.
  - apply take_app_length'. symmetry. exact Hp.
  - unfold occurs_at. fold p.
    rewrite drop_app_length' by (symmetry; exact Hp). apply take_app_length.
  - replace (p + length alt)%nat with (length (take p in_ ++ alt))
      by (rewrite length_app, Hp; reflexivity).
    rewrite (app_assoc (take p in_) alt). apply drop_app_length.
  - intros ->. rewrite <- Heq at 1. rewrite <- drop_drop.
    rewrite take_drop. apply take_drop.
Qed.

(** ** The k-mer scan of a variant string *)

Lemma substr_window s i k :
  0 <= i <= size s -> 0 <= k ->
  substr s i k = Ok (take (Z.to_nat k) (drop (Z.to_nat i) s)).
Proof.
  intros Hi Hk. unfold substr.
  destruct (Z.ltb_spec (size s) i); [lia|]. f_equal.
  destruct (Z.le_gt_cases k (size s - i)).
  - f_equal. lia.
  - rewrite !take_ge; [reflexivity| |]; rewrite length_drop;
      unfold size in *; lia.
Qed.

Lemma process_scan_loop_step countBase countVariant varStr k bound i st :
  process_scan_loop countBase countVariant varStr k bound i st
  = if decide (i < bound) then
      substr varStr i k
      ≫= fun ks => process_scan_loop countBase countVariant varStr k bound
                     (i + 1) (scan_kmer countBase countVariant st ks)
    else Ok st.
Proof.
  rewrite process_scan_loop_equation_1.
  destruct (decide (i < bound)); simpl; [|reflexivity].
  destruct (substr varStr i k); reflexivity.
Qed.

Lemma process_scan_loop_windows countBase countVariant varStr k bound (n : nat) :
  forall i st,
    0 <= k -> 0 <= i -> i + Z.of_nat n = bound -> bound <= size varStr + 1 ->
    process_scan_loop countBase countVariant varStr k bound i st
    = Ok (foldl (scan_kmer countBase countVariant) st
            (map (fun i => take (Z.to_nat k) (drop (Z.to_nat i) varStr))
                 (seqZ i (Z.of_nat n)))).
Proof.
  induction n as [|n IH]; intros i st Hk Hi Hn Hb;
    rewrite process_scan_loop_step.
  - destruct (decide (i < bound)); [lia|reflexivity].
  - destruct (decide (i < bound)); [|lia].
    rewrite substr_window by lia. cbn [mbind result_bind].
    rewrite IH by lia. rewrite (seqZ_cons i) by lia.
    rewrite map_cons. cbn [foldl].
    do 4 f_equal; lia.
Qed.

Lemma process_scan_loop_past countBase countVariant varStr k bound (n : nat) :
  forall i st,
    0 <= k -> 0 <= i -> i + Z.of_nat n = size varStr + 1 ->
    size varStr + 1 < bound ->
    process_scan_loop countBase countVariant varStr k bound i st
    = Fault OutOfRange.
Proof.
  induction n as [|n IH]; intros i st Hk Hi Hn Hb;
    rewrite process_scan_loop_step;
    (destruct (decide (i < bound)); [|lia]).
  - unfold substr. destruct (Z.ltb_spec (size varStr) i); [reflexivity|lia].
  - rewrite substr_window by lia. cbn [mbind result_bind].
    apply IH; lia.
Qed.

Lemma last_cons_default {A} (l : list A) x d :
  List.last (x :: l) d = List.last l x.
Proof.
  revert x d. induction l as [|y l IH]; intros x d; [reflexivity|].
  change (List.last (x :: y :: l) d) with (List.last (y :: l) d).
  rewrite (IH y d), (IH y x). reflexivity.
Qed.

Lemma foldl_scan_kmer countBase countVariant ws : forall st,
  let st' := foldl (scan_kmer countBase countVariant) st ws in
  bv st' = bv st ++ map (fun ks => Z.min 9 (countBase ks)) ws
  /\ vv st' = vv st ++ map (fun ks => Z.min 9 (countVariant ks)) ws
  /\ variantKmer st'
     = List.last (List.filter (variant_only countBase countVariant) ws)
                 (variantKmer st).
Proof.
  induction ws as [|w ws IH]; intros st; simpl.
  - rewrite !app_nil_r. auto.
  - destruct (IH (scan_kmer countBase countVariant st w)) as (Hb & Hv & Hk).
    rewrite Hb, Hv, Hk. unfold scan_kmer, variant_only. simpl.
    rewrite <- !app_assoc. simpl.
    split; [|split].
    + do 2 f_equal. destruct (Z.ltb_spec 9 (countBase w)); lia.
    + do 2 f_equal. destruct (Z.ltb_spec 9 (countVariant w)); lia.
    + destruct ((countBase w =? 0) && (0 <? countVariant w));
        [rewrite last_cons_default|]; reflexivity.
Qed.

Lemma kmers_length varStr k :
  1 <= k <= size varStr ->
  Forall (fun ks => size ks = k) (kmers varStr k)
  /\ size (kmers varStr k) = size varStr - k + 1.
Proof.
  intros Hk. unfold kmers. split.
  - apply Forall_forall. intros ks Hin.
    apply list_elem_of_In, in_map_iff in Hin as (i & <- & Hi).
    apply In_seqZ in Hi. unfold size in *.
    rewrite length_take, length_drop. lia.
  - unfold size in *. rewrite length_map, length_seqZ. lia.
Qed.

Lemma last_filter_nonempty {A} (p : A -> bool) (l : list A) (d : A) :
  In (List.last (List.filter p l) d) (List.filter p l)
  \/ List.filter p l = [].
Proof.
  destruct (List.filter p l) as [|x l'] eqn:Hf; [right; reflexivity|].
  left. rewrite last_cons_default.
  clear Hf. revert x. induction l' as [|y l' IH]; intros x; [left; reflexivity|].
  right. rewrite last_cons_default. apply IH.
Qed.

(** X13.  The k-mer profile: for [1 <= k <= length], the scan returns; it
    records, for every k-mer of the variant string from left to right, its
    count in the base index and in the variant index, each clamped at 9;
    the k-mer it remembers is the last one that the base index lacks and
    the variant index has; and assembly is attempted exactly when there is
    such a k-mer. *)
Theorem process_kmer_scan_profile countBase countVariant varStr k :
  1 <= k <= size varStr -> size varStr < 2 ^ 64 ->
  exists st,
    process_kmer_scan countBase countVariant varStr k
    = Ok (st, existsb (variant_only countBase countVariant) (kmers varStr k))
    /\ bv st = map (fun ks => Z.min 9 (countBase ks)) (kmers varStr k)
    /\ vv st = map (fun ks => Z.min 9 (countVariant ks)) (kmers varStr k)
    /\ variantKmer st
       = List.last
           (List.filter (variant_only countBase countVariant) (kmers varStr k))
           []
    /\ size (kmers varStr k) = size varStr - k + 1
    /\ Forall (fun ks => size ks = k) (kmers varStr k).
Proof.
  intros Hk Hsz. pose proof (kmers_length varStr k Hk) as [Hall Hlen].
  unfold process_kmer_scan. rewrite wrap_size_small by lia.
  rewrite (process_scan_loop_windows _ _ _ _ _ (Z.to_nat (size varStr - k + 1)))
    by lia.
  rewrite Z2Nat.id by lia. fold (kmers varStr k).
  destruct (foldl_scan_kmer countBase countVariant (kmers varStr k)
              {| bv := []; vv := []; variantKmer := [] |}) as (Hb & Hv & Hkm).
  cbn [bv vv variantKmer app] in Hb, Hv, Hkm.
  eexists. split; [|split; [exact Hb|split; [exact Hv|split; [exact Hkm|auto]]]].
  cbn [mbind result_bind]. do 2 f_equal. rewrite Hkm.
  destruct (last_filter_nonempty (variant_only countBase countVariant)
              (kmers varStr k) []) as [Hin|Hnil].
  - apply filter_In in Hin as [Hin Hvo].
    assert (Hex : existsb (variant_only countBase countVariant) (kmers varStr k)
                  = true) by (apply existsb_exists; eauto).
    rewrite Hex. apply list_elem_of_In in Hin.
    pose proof (proj1 (Forall_forall _ _) Hall _ Hin) as Hs. cbv beta in Hs.
    rewrite bool_decide_eq_false_2; [reflexivity|].
    intros Hnil. rewrite Hnil in Hs. unfold size in Hs. simpl in Hs. lia.
  - rewrite Hnil. simpl.
    destruct (existsb _ _) eqn:Hex; [|reflexivity].
    apply existsb_exists in Hex as (w & Hw & Hvo).
    assert (Hf : In w (List.filter (variant_only countBase countVariant)
                         (kmers varStr k))) by (apply filter_In; auto).
    rewrite Hnil in Hf. destruct Hf.
Qed.

(** X14.  The scan at its edges: a k-mer length above [length + 1] makes the
    loop bound [size() - k + 1] wrap, and the scan ends in
    [std::out_of_range] once the start position passes the end; with
    [k = length + 1] nothing is scanned; with [k = 0] every window is the
    empty string, no k-mer is remembered and assembly is not attempted. *)
Theorem process_kmer_scan_edges countBase countVariant varStr k :
  size varStr + 1 < 2 ^ 64 ->
  (size varStr + 1 < k < 2 ^ 64 ->
     process_kmer_scan countBase countVariant varStr k = Fault OutOfRange)
  /\ (k = size varStr + 1 ->
        process_kmer_scan countBase countVariant varStr k
        = Ok ({| bv := []; vv := []; variantKmer := [] |}, false))
  /\ (k = 0 ->
        exists st,
          process_kmer_scan countBase countVariant varStr k = Ok (st, false)
          /\ variantKmer st = []
          /\ size (bv st) = size varStr + 1
          /\ size (vv st) = size varStr + 1).
Proof.
  intros Hsz. pose proof (size_nonneg varStr) as Hnn.
  split; [|split].
  - intros Hk. unfold process_kmer_scan, wrap_size.
    assert (Hwrap : (size varStr - k + 1) mod 2 ^ 64
                    = size varStr - k + 1 + 2 ^ 64).
    { symmetry. apply Z.mod_unique with (q := -1); lia. }
    rewrite Hwrap.
    rewrite (process_scan_loop_past _ _ _ _ _ (Z.to_nat (size varStr + 1)))
      by lia.
    reflexivity.
  - intros ->. unfold process_kmer_scan.
    replace (size varStr - (size varStr + 1) + 1) with 0 by lia.
    rewrite process_scan_loop_step. reflexivity.
  - intros ->. unfold process_kmer_scan. rewrite wrap_size_small by lia.
    rewrite (process_scan_loop_windows _ _ _ _ _ (Z.to_nat (size varStr + 1)))
      by lia.
    set (ws := map _ _).
    destruct (foldl_scan_kmer countBase countVariant ws
                {| bv := []; vv := []; variantKmer := [] |}) as (Hb & Hv & Hkm).
    cbn [bv vv variantKmer app] in Hb, Hv, Hkm.
    assert (Hempty : Forall (fun w => w = []) ws).
    { apply Forall_forall. intros w Hw.
      apply list_elem_of_In, in_map_iff in Hw as (i & <- & _). reflexivity. }
    assert (Hlast : variantKmer
                      (foldl (scan_kmer countBase countVariant)
                         {| bv := []; vv := []; variantKmer := [] |} ws) = []).
    { rewrite Hkm.
      destruct (last_filter_nonempty (variant_only countBase countVariant) ws [])
        as [Hin|Hnil]; [|rewrite Hnil; reflexivity].
      apply filter_In in Hin as [Hin _]. apply list_elem_of_In in Hin.
      exact (proj1 (Forall_forall _ _) Hempty _ Hin). }
    eexists. split; [|split; [exact Hlast|]].
    + cbn [mbind result_bind]. rewrite Hlast. reflexivity.
    + rewrite Hb, Hv. unfold ws. unfold size in *.
      rewrite !length_map, length_seqZ. lia.
Qed.

(** ** The statements at work on the small index *)

Lemma toy_builder_fits : Forall (fits Toy.builder) (m_haplotypes Toy.builder).
Proof. repeat constructor; vm_compute; congruence. Qed.

Lemma toy_two_candidates_fit :
  Forall (fits Toy.two_candidates) (m_haplotypes Toy.two_candidates).
Proof. repeat constructor; vm_compute; congruence. Qed.

Lemma toy_two_candidates_scored :
  Forall (fun h => is_Ok (calculateHaplotypeIncoherency Toy.align
                            (with_fresh_reads Toy.reads Toy.reverse_complement
                               Toy.two_candidates) h))
         (m_haplotypes Toy.two_candidates).
Proof.
  constructor; [exists 2; vm_compute; reflexivity|].
  constructor; [exists 25; vm_compute; reflexivity|].
  constructor.
Qed.

Lemma extendOnce_branch_fanout_witness :
  valid_extensions Toy.alphabet Toy.counts Toy.builder ED_SENSE Toy.seed
  = bases "AC"
  /\ extendOnce Toy.alphabet Toy.counts ED_SENSE Toy.builder
     = Ok (with_haplotypes Toy.builder [bases "ACGTACGTA"; bases "ACGTACGTC"]).
Proof.
  split; [reflexivity|].
  destruct (extendOnce_branch_fanout Toy.alphabet Toy.counts Toy.builder
              ED_SENSE [] Toy.seed [] "A"%char ["C"%char]
              eq_refl toy_builder_fits eq_refl)
    as (live1 & staged1 & live2 & staged2 & pre & post & He & H1 & H2 & _).
  rewrite He. injection H1 as <- <-. injection H2 as <- <-. reflexivity.
Defined.

Lemma extendOnce_staging_witness :
  exists live staged,
    extend_each Toy.alphabet Toy.counts Toy.builder ED_SENSE
      (m_haplotypes Toy.builder) [] = Ok (live, staged)
    /\ extendOnce Toy.alphabet Toy.counts ED_SENSE Toy.builder
       = Ok (with_haplotypes Toy.builder (live ++ staged))
    /\ length live = 1%nat.
Proof.
  destruct (extendOnce_staging Toy.alphabet Toy.counts Toy.builder ED_SENSE
              toy_builder_fits)
    as (live & staged & He & Hon & Hlen & _).
  exists live, staged. auto.
Defined.

Lemma cullHaplotypes_exact_witness :
  exists b',
    cullHaplotypes Toy.reads Toy.reverse_complement Toy.align Toy.two_candidates
    = Ok b'
    /\ m_haplotypes b' = [Toy.seed].
Proof.
  destruct (cullHaplotypes_exact Toy.reads Toy.reverse_complement Toy.align
              Toy.two_candidates toy_two_candidates_scored)
    as (b' & Hc & Hf & _).
  exists b'. split; [exact Hc|]. rewrite Hf. vm_compute. reflexivity.
Defined.

Lemma extendOnce_growth_witness :
  (exists b',
     extendOnce Toy.alphabet Toy.counts ED_SENSE Toy.builder = Ok b'
     /\ (length (m_haplotypes Toy.builder) <= length (m_haplotypes b'))%nat)
  /\ (exists b1 b2,
        extendOnce Toy.alphabet Toy.counts ED_SENSE Toy.builder = Ok b1
        /\ extendOnce Toy.alphabet Toy.counts ED_ANTISENSE b1 = Ok b2
        /\ run_round Toy.alphabet Toy.counts Toy.reads Toy.reverse_complement
             Toy.align 1 Toy.builder = Ok b2).
Proof.
  destruct (extendOnce_growth Toy.alphabet Toy.counts Toy.reads
              Toy.reverse_complement Toy.align Toy.builder) as [Hstep Hround].
  split.
  - destruct (Hstep ED_SENSE toy_builder_fits) as (b' & He & Hlen & _).
    exists b'. auto.
  - destruct (Hround 1) as (b1 & b2 & H1 & H2 & Hr & _).
    + vm_compute. congruence.
    + repeat constructor; vm_compute; congruence.
    + exists b1, b2. auto.
Defined.

Lemma mismatch_scan_placements_witness :
  let b := with_fresh_reads Toy.reads Toy.reverse_complement Toy.two_candidates in
  collect_starts Toy.align b Toy.seed
  = concat (map (spec_placements Toy.align b Toy.seed) (m_reads b)).
Proof.
  intros b.
  apply (mismatch_scan_placements Toy.align b Toy.seed).
  - vm_compute. split; congruence.
  - repeat constructor.
Defined.

Lemma extendOnce_stall_witness :
  exists b',
    extendOnce Toy.alphabet Toy.counts ED_SENSE Toy.stalled = Ok b'
    /\ m_haplotypes b' !! 0%nat = Some (bases "ACGTACGA").
Proof.
  destruct (extendOnce_stall Toy.alphabet Toy.counts Toy.stalled ED_SENSE
              [] (bases "ACGTACGA") [])
    as (b' & He & _ & Hpos & _).
  - reflexivity.
  - repeat constructor; vm_compute; congruence.
  - intros c _. vm_compute. reflexivity.
  - exists b'. auto.
Defined.

Lemma run_deterministic_witness :
  run Toy.alphabet Toy.counts Toy.reads Toy.reverse_complement Toy.align
    Toy.builder
  = run Toy.alphabet Toy.recount Toy.reads Toy.reverse_complement Toy.align
      Toy.builder.
Proof.
  apply (run_deterministic Toy.alphabet Toy.reverse_complement Toy.align
           Toy.counts Toy.recount Toy.reads Toy.reads).
  - intros kmer direction c. reflexivity.
  - intros hs k reverse max. reflexivity.
Defined.

Lemma candidate_order_preserved_witness :
  (exists b',
     extendOnce Toy.alphabet Toy.counts ED_SENSE Toy.two_candidates = Ok b'
     /\ exists h', m_haplotypes b' !! 1%nat = Some h'
                   /\ grows Toy.alphabet Toy.counts Toy.two_candidates
                        ED_SENSE Toy.gapped h')
  /\ (exists b',
        cullHaplotypes Toy.reads Toy.reverse_complement Toy.align
          Toy.two_candidates = Ok b'
        /\ sublist (m_haplotypes b') (m_haplotypes Toy.two_candidates)).
Proof.
  destruct (candidate_order_preserved Toy.alphabet Toy.counts Toy.reads
              Toy.reverse_complement Toy.align Toy.two_candidates)
    as [Hext Hcull].
  split.
  - destruct (Hext ED_SENSE toy_two_candidates_fit) as (b' & He & Hpos & _).
    exists b'. split; [exact He|]. apply (Hpos 1%nat Toy.gapped). reflexivity.
  - destruct (Hcull toy_two_candidates_scored) as (b' & Hc & Hsub & _).
    exists b'. auto.
Defined.

Lemma extendOnce_throws_witness :
  extendOnce Toy.alphabet Toy.counts ED_SENSE Toy.short = Fault OutOfRange
  /\ is_Ok (extendOnce Toy.alphabet Toy.counts ED_ANTISENSE Toy.short).
Proof.
  destruct (extendOnce_throws Toy.alphabet Toy.counts Toy.short)
    as (Hthrow & _ & Hanti & _).
  - vm_compute. split; congruence.
  - repeat constructor.
  - split; [apply Hthrow; constructor; reflexivity|exact Hanti].
Defined.

Lemma incoherency_is_max_gap_witness :
  calculateHaplotypeIncoherency Toy.align
    (with_fresh_reads Toy.reads Toy.reverse_complement Toy.two_candidates)
    Toy.gapped
  = Ok 25.
Proof.
  destruct (incoherency_is_max_gap Toy.align
              (with_fresh_reads Toy.reads Toy.reverse_complement
                 Toy.two_candidates) Toy.gapped)
    as (Hscore & _).
  - vm_compute. discriminate.
  - vm_compute. discriminate.
  - replace (collect_starts Toy.align
               (with_fresh_reads Toy.reads Toy.reverse_complement
                  Toy.two_candidates) Toy.gapped)
      with [0; 25] by (vm_compute; reflexivity).
    repeat constructor; lia.
  - rewrite Hscore. vm_compute. reflexivity.
Defined.

Lemma cullHaplotypes_returns_witness :
  is_Ok (cullHaplotypes Toy.reads Toy.reverse_complement Toy.align
           Toy.two_candidates).
Proof.
  destruct (cullHaplotypes_returns Toy.reads Toy.reverse_complement Toy.align
              Toy.two_candidates) as [[_ Hok] _].
  - repeat constructor; vm_compute; discriminate.
  - apply Hok. repeat constructor; vm_compute; discriminate.
Defined.

Lemma extendOnce_count_witness :
  exists b',
    extendOnce Toy.alphabet Toy.counts ED_SENSE Toy.builder = Ok b'
    /\ length (m_haplotypes b') = 2%nat.
Proof.
  destruct (extendOnce_count Toy.alphabet Toy.counts Toy.builder ED_SENSE)
    as (b' & He & Hlen & _).
  - repeat constructor; vm_compute; congruence.
  - exists b'. split; [exact He|]. rewrite Hlen. reflexivity.
Defined.

Lemma query_kmer_shift_witness :
  query_kmer Toy.builder ED_ANTISENSE (extend_with ED_SENSE Toy.seed "A"%char)
  = query_kmer Toy.builder ED_ANTISENSE Toy.seed.
Proof.
  destruct (query_kmer_shift Toy.builder Toy.seed "A"%char)
    as (_ & _ & Hcross & _).
  - vm_compute. split; congruence.
  - reflexivity.
  - exact Hcross.
Defined.

Lemma incoherency_read_order_witness :
  calculateHaplotypeIncoherency Toy.align
    (with_reads Toy.builder [bases "A"; bases "G"]) Toy.seed
  = calculateHaplotypeIncoherency Toy.align
      (with_reads Toy.builder [bases "G"; bases "A"]) Toy.seed.
Proof.
  apply (incoherency_read_order Toy.align Toy.builder
           [bases "A"; bases "G"] [bases "G"; bases "A"]).
  apply perm_swap.
Defined.

Lemma best_starts_of_exact_read_witness :
  In 4 (best_starts Toy.seed (bases "ACGT")).
Proof.
  apply (best_starts_of_exact_read Toy.seed (bases "ACGT") 0).
  - reflexivity.
  - vm_compute. split; congruence.
  - reflexivity.
  - split; [vm_compute; split; congruence|reflexivity].
Defined.

Lemma run_contains_seed_witness :
  exists pre post,
    bases "TACGTACGTA" = pre ++ Toy.seed ++ post
    /\ (length pre <= 100)%nat /\ (length post <= 100)%nat.
Proof.
  destruct (run_contains_seed Toy.alphabet Toy.counts Toy.reads
              Toy.reverse_complement Toy.align Toy.builder Toy.seed
              [bases "TACGTACGTA"; bases "TACGTACGTC"]
              eq_refl) with (h := bases "TACGTACGTA")
    as (pre & post & Heq & Hpre & Hpost & _).
  - vm_compute. reflexivity.
  - left. reflexivity.
  - exists pre, post. auto.
Defined.

Lemma applyVariant_returns_witness :
  applyVariant (bases "ACGTACGT") 2 (bases "GT") (bases "C")
  = Ok (bases "ACCACGT").
Proof.
  apply (applyVariant_returns (bases "ACGTACGT") 2 (bases "GT") (bases "C")).
  - reflexivity.
  - split; [vm_compute; split; reflexivity|]. split; reflexivity.
Defined.

Lemma applyVariant_revert_witness :
  applyVariant (bases "ACCACGT") 2 (bases "C") (bases "GT")
  = Ok (bases "ACGTACGT").
Proof.
  apply (applyVariant_revert (bases "ACGTACGT") 2 (bases "GT") (bases "C")
           (bases "ACCACGT")).
  - reflexivity.
  - reflexivity.
  - reflexivity.
  - left. discriminate.
Defined.

Lemma applyVariant_frame_witness :
  size (bases "ACCACGT") = size (bases "ACGTACGT") - size (bases "GT")
                           + size (bases "C").
Proof.
  apply (applyVariant_frame (bases "ACGTACGT") 2 (bases "GT") (bases "C")
           (bases "ACCACGT")).
  - reflexivity.
  - reflexivity.
Defined.

Lemma process_kmer_scan_profile_witness :
  exists st,
    process_kmer_scan Toy.base_count Toy.variant_count (bases "ACGTA") 4
    = Ok (st, true)
    /\ bv st = [3; 0] /\ vv st = [9; 9] /\ variantKmer st = bases "CGTA".
Proof.
  destruct (process_kmer_scan_profile Toy.base_count Toy.variant_count
              (bases "ACGTA") 4)
    as (st & Hscan & Hb & Hv & Hk & _).
  - vm_compute. split; congruence.
  - reflexivity.
  - exists st. rewrite Hscan, Hb, Hv, Hk. repeat split; reflexivity.
Defined.

Lemma process_kmer_scan_edges_witness :
  process_kmer_scan Toy.base_count Toy.variant_count (bases "AC") 5
  = Fault OutOfRange.
Proof.
  destruct (process_kmer_scan_edges Toy.base_count Toy.variant_count
              (bases "AC") 5) as (Hpast & _).
  - reflexivity.
  - apply Hpast. vm_compute. split; reflexivity.
Defined.

Lemma extendOnce_distinct_witness :
  exists b',
    extendOnce Toy.alphabet Toy.counts ED_SENSE Toy.builder = Ok b'
    /\ List.NoDup (m_haplotypes b').
Proof.
  apply (extendOnce_distinct Toy.alphabet Toy.counts Toy.builder ED_SENSE).
  - repeat constructor; vm_compute; congruence.
  - unfold Toy.alphabet, bases. simpl.
    constructor; [simpl; intros [H|[H|[H|[]]]]; discriminate H|].
    constructor; [simpl; intros [H|[H|[]]]; discriminate H|].
    constructor; [simpl; intros [H|[]]; discriminate H|].
    constructor; [intros []|constructor].
  - constructor; [intros []|constructor].
  - constructor; [vm_compute; discriminate|constructor].
Defined.


